(** * puffer: file descriptors and the media-server launcher

    A shallow embedding of [src/util/file_descriptor.cc] (module [Util]) and
    of [src/media-server/run_servers.cc] (module [Servers]), with the
    properties of the specification stated over it.

    The C++ methods act on two pieces of state: the object ([*this]) and the
    operating system.  A method is a function from both to a result and the
    new pair; an exception keeps the state reached when it was thrown. *)

From Stdlib Require Import ZArith List Lia Bool Ascii.
From Stdlib Require Import DecimalString DecimalZ.
From stdpp Require Import gmap strings list fin_maps.

Open Scope Z_scope.

(** ** Bytes, exceptions and results *)

Abbreviation bytes := (list Byte.byte).

Inductive exn : Type :=
| unix_error (attempt : string)        (* thrown by CheckSystemCall *)
| runtime_error (what : string)        (* std::runtime_error *)
| assertion_failure                    (* a failed assert() *)
| library_error (origin : string).     (* std::exception of pqxx, yaml-cpp
                                          or CryptoPP *)

Inductive result (A : Type) : Type :=
| Ok (a : A)
| Throw (e : exn)
| OutOfFuel.

Arguments Ok {A} a.
Arguments Throw {A} e.
Arguments OutOfFuel {A}.

(** Modelled from the spec: [CheckSystemCall] of exception.hh, which is not
    among the sources.  "SystemCallError (an OS-level call failed)": a
    negative return value becomes an exception naming the call, any other
    value is handed back. *)
Definition CheckSystemCall (attempt : string) (return_value : Z) : result Z :=
  if return_value <? 0 then Throw (unix_error attempt) else Ok return_value.

(** ** The operating system

    The system calls are not part of the repository.  The kernel is a table
    of open descriptors, each on a byte stream (a pipe or socket: reads
    consume what writes appended) or on a seekable file (contents and
    offset).  How many bytes one call transfers is the kernel's choice:
    the [w_oracle] lists its decisions for the calls to come, one per
    read, write or close; when the list is used up every call transfers
    all it was asked for. *)

Inductive kobj : Type :=
| Stream (pending : bytes)                (* written and not yet read; a
                                             read of an empty stream finds
                                             its end: the writer is done *)
| File (data : bytes) (offset : nat).

Record ofile : Type := mk_ofile { of_obj : kobj; of_cloexec : bool }.

Inductive choice : Type :=
| Fault                 (* the call fails: it returns -1 *)
| Upto (n : nat).       (* the call transfers at most n bytes *)

Definition addr := nat.

Inductive event : Type :=
| EvDeregister (epoller : addr) (fd : Z)   (* Epoller::deregister(fd) *)
| EvClose (fd : Z)                         (* ::close(fd) *)
| EvWarning (about : Z)                    (* a warning line on cerr *)
| EvException (where_ : string) (e : exn). (* print_exception *)

Record World : Type := mk_World {
  w_fds : gmap Z ofile;        (* open descriptors *)
  w_oracle : list choice;      (* the kernel's coming decisions *)
  w_epollers : gmap addr Z;    (* live Epoller objects and their fd_num() *)
  w_trace : list event         (* calls and messages so far, oldest first *)
}.

Definition set_fds (t : gmap Z ofile) (w : World) : World :=
  mk_World t (w_oracle w) (w_epollers w) (w_trace w).

Definition set_oracle (o : list choice) (w : World) : World :=
  mk_World (w_fds w) o (w_epollers w) (w_trace w).

Definition emit (e : event) (w : World) : World :=
  mk_World (w_fds w) (w_oracle w) (w_epollers w) (w_trace w ++ [e]).

Definition pop_choice (w : World) : option choice * World :=
  (head (w_oracle w), set_oracle (tail (w_oracle w)) w).

(** The number of bytes granted when [want] are asked for; [None] is a
    failing call. *)
Definition grant (c : option choice) (want : nat) : option nat :=
  match c with
  | None => Some want
  | Some Fault => None
  | Some (Upto m) => Some (Nat.min m want)
  end.

Definition zero_byte : Byte.byte := Byte.x00.

(** Writing [b] at offset [off] of a file: a gap past the end reads as
    zeros. *)
Definition overwrite (data : bytes) (off : nat) (b : bytes) : bytes :=
  take off (data ++ replicate (off - length data) zero_byte)
    ++ b ++ drop (off + length b) data.

Definition obj_write (o : kobj) (b : bytes) : kobj :=
  match o with
  | Stream q => Stream (q ++ b)
  | File data off => File (overwrite data off b) (off + length b)
  end.

Definition obj_avail (o : kobj) : bytes :=
  match o with
  | Stream q => q
  | File data off => drop off data
  end.

Definition obj_consume (o : kobj) (n : nat) : kobj :=
  match o with
  | Stream q => Stream (drop n q)
  | File data off => File data (off + n)
  end.

(** ssize_t write(int fd, const void *buf, size_t count) *)
Definition sys_write (fd : Z) (buf : bytes) (w : World) : Z * World :=
  match w_fds w !! fd with
  | None => (-1, w)
  | Some f =>
      let '(c, w1) := pop_choice w in
      match grant c (length buf) with
      | None => (-1, w1)
      | Some n =>
          (Z.of_nat n,
           set_fds (<[fd := mk_ofile (obj_write (of_obj f) (take n buf))
                                     (of_cloexec f)]> (w_fds w1)) w1)
      end
  end.

(** ssize_t read(int fd, void *buf, size_t count): the result and the bytes
    stored in the buffer. *)
Definition sys_read (fd : Z) (count : nat) (w : World) : Z * bytes * World :=
  match w_fds w !! fd with
  | None => (-1, [], w)
  | Some f =>
      let '(c, w1) := pop_choice w in
      let avail := obj_avail (of_obj f) in
      match grant c (Nat.min count (length avail)) with
      | None => (-1, [], w1)
      | Some n =>
          (Z.of_nat n, take n avail,
           set_fds (<[fd := mk_ofile (obj_consume (of_obj f) n)
                                     (of_cloexec f)]> (w_fds w1)) w1)
      end
  end.

(** int close(int fd): the descriptor is released even when the call
    reports a failure, as Linux does. *)
Definition sys_close (fd : Z) (w : World) : Z * World :=
  let w0 := emit (EvClose fd) w in
  match w_fds w0 !! fd with
  | None => (-1, w0)
  | Some _ =>
      let '(c, w1) := pop_choice w0 in
      let w2 := set_fds (delete fd (w_fds w1)) w1 in
      match c with
      | Some Fault => (-1, w2)
      | _ => (0, w2)
      end
  end.

Inductive whence : Type := SEEK_SET | SEEK_CUR | SEEK_END.

(** off_t lseek(int fd, off_t offset, int whence): a position before the
    start of the file or beyond the largest off_t is refused (EINVAL), and
    so is every seek on what is not a file.  The largest position is that of
    a file system without a limit of its own; one with a smaller limit
    refuses earlier, between the size of its files and this one. *)
Definition sys_lseek (fd : Z) (offset : Z) (wh : whence) (w : World)
  : Z * World :=
  match w_fds w !! fd with
  | Some (mk_ofile (File data off) ce) =>
      let base := match wh with
                  | SEEK_SET => 0
                  | SEEK_CUR => Z.of_nat off
                  | SEEK_END => Z.of_nat (length data)
                  end in
      let pos := base + offset in
      if (pos <? 0) || (2 ^ 63 <=? pos) then (-1, w)
      else (pos, set_fds (<[fd := mk_ofile (File data (Z.to_nat pos)) ce]>
                            (w_fds w)) w)
  | _ => (-1, w)
  end.

(** fcntl(fd, F_SETFD, FD_CLOEXEC) *)
Definition sys_fcntl_cloexec (fd : Z) (w : World) : Z * World :=
  match w_fds w !! fd with
  | None => (-1, w)
  | Some f => (0, set_fds (<[fd := mk_ofile (of_obj f) true]> (w_fds w)) w)
  end.

(** Conversions between the 64-bit integer types of [seek]. *)
Definition to_uint64 (z : Z) : Z := z mod 2 ^ 64.
Definition to_int64 (z : Z) : Z := (z + 2 ^ 63) mod 2 ^ 64 - 2 ^ 63.

(** ** The class FileDescriptor *)

Module Util.

Record FileDescriptor : Type := mk_FileDescriptor {
  fd_ : Z;
  eof_ : bool;
  read_count_ : N;
  write_count_ : N;
  epollers_ : gmap Z addr     (* weak_ptr<Epoller> by Epoller fd_num() *)
}.

Definition with_fd (v : Z) (d : FileDescriptor) : FileDescriptor :=
  mk_FileDescriptor v (eof_ d) (read_count_ d) (write_count_ d) (epollers_ d).

Definition with_eof (v : bool) (d : FileDescriptor) : FileDescriptor :=
  mk_FileDescriptor (fd_ d) v (read_count_ d) (write_count_ d) (epollers_ d).

Definition with_epollers (v : gmap Z addr) (d : FileDescriptor)
  : FileDescriptor :=
  mk_FileDescriptor (fd_ d) (eof_ d) (read_count_ d) (write_count_ d) v.

(** A method: the object and the world go in, a result and both come out. *)
Definition M (A : Type) : Type :=
  FileDescriptor -> World -> result A * FileDescriptor * World.

Definition ret {A} (a : A) : M A := fun d w => (Ok a, d, w).

Definition throw {A} (e : exn) : M A := fun d w => (Throw e, d, w).

Definition bind {A B} (m : M A) (k : A -> M B) : M B :=
  fun d w =>
    match m d w with
    | (Ok a, d', w') => k a d' w'
    | (Throw e, d', w') => (Throw e, d', w')
    | (OutOfFuel, d', w') => (OutOfFuel, d', w')
    end.

Notation "x <- m ;; k" := (bind m (fun x => k))
  (at level 100, m at next level, right associativity).
Notation "m ;;; k" := (bind m (fun _ => k))
  (at level 100, right associativity).

Definition fd_num : M Z := fun d w => (Ok (fd_ d), d, w).
Definition eof : M bool := fun d w => (Ok (eof_ d), d, w).

(** A system call on the world. *)
Definition syscall {A} (f : World -> A * World) : M A :=
  fun d w => let '(a, w') := f w in (Ok a, d, w').

Definition check (attempt : string) (return_value : Z) : M Z :=
  fun d w => (CheckSystemCall attempt return_value, d, w).

(** Modelled from the spec: the inline members [set_eof], [register_read]
    and [register_write] of file_descriptor.hh, which is not among the
    sources.  "sets end-of-file", "updates the read counter". *)
Definition set_eof (v : bool) : M unit := fun d w => (Ok tt, with_eof v d, w).

Definition register_read : M unit :=
  fun d w =>
    (Ok tt,
     mk_FileDescriptor (fd_ d) (eof_ d) (read_count_ d + 1) (write_count_ d)
       (epollers_ d), w).

Definition register_write : M unit :=
  fun d w =>
    (Ok tt,
     mk_FileDescriptor (fd_ d) (eof_ d) (read_count_ d) (write_count_ d + 1)
       (epollers_ d), w).

(** Modelled from the spec: [Epoller::deregister] of epoller.cc, which is
    not among the sources.  "deregister(descriptor)": the multiplexer is
    asked to stop watching; the call is recorded and never fails. *)
Definition deregister (epoller : addr) (fd : Z) (w : World) : World :=
  emit (EvDeregister epoller fd) w.

(** FileDescriptor::FileDescriptor( const int fd ) *)
Definition construct (fd : Z) (w : World) : result FileDescriptor * World :=
  let '(rv, w') := sys_fcntl_cloexec fd w in
  match CheckSystemCall "fcntl FD_CLOEXEC" rv with
  | Ok _ => (Ok (mk_FileDescriptor fd false 0 0 ∅), w')
  | Throw e => (Throw e, w')
  | OutOfFuel => (OutOfFuel, w')
  end.

(** The loop of [close]: every entry whose weak_ptr still locks is told to
    deregister this descriptor. *)
Definition notify_one (fd : Z) (w : World) (item : Z * addr) : World :=
  match w_epollers w !! item.2 with
  | Some _ => deregister item.2 fd w
  | None => w
  end.

Definition notify_epollers (fd : Z) (items : list (Z * addr)) (w : World)
  : World :=
  foldl (notify_one fd) w items.

(** void FileDescriptor::close() *)
Definition close : M unit :=
  fun d w =>
    if fd_ d <? 0 then (Ok tt, d, w)
    else
      let w1 := notify_epollers (fd_ d) (map_to_list (epollers_ d)) w in
      let '(rv, w2) := sys_close (fd_ d) w1 in
      match CheckSystemCall "close" rv with
      | Ok _ => (Ok tt, with_fd (-1) d, w2)
      | Throw e => (Throw e, d, w2)
      | OutOfFuel => (OutOfFuel, d, w2)
      end.

(** FileDescriptor::~FileDescriptor() *)
Definition destroy : M unit :=
  fun d w =>
    match close d w with
    | (Throw e, d', w') => (Ok tt, d', emit (EvException "FileDescriptor" e) w')
    | r => r
    end.

(** string::const_iterator FileDescriptor::write( begin, end ): iterators
    are positions in [buffer]. *)
Definition write_range (buffer : bytes) (begin end_ : nat) : M nat :=
  if (end_ <=? begin)%nat then throw (runtime_error "nothing to write")
  else
    fd <- fd_num ;;
    rv <- syscall (sys_write fd (take (end_ - begin) (drop begin buffer))) ;;
    bytes_written <- check "write" rv ;;
    if bytes_written =? 0 then throw (runtime_error "write returned 0")
    else
      register_write ;;;
      ret (begin + Z.to_nat bytes_written)%nat.

(** The do-while loop of [write( buffer, write_all )]. *)
Fixpoint write_loop (fuel : nat) (buffer : bytes) (write_all : bool)
  (it : nat) : M nat :=
  match fuel with
  | O => fun d w => (OutOfFuel, d, w)
  | S fuel' =>
      it' <- write_range buffer it (length buffer) ;;
      if write_all && negb (it' =? length buffer)%nat
      then write_loop fuel' buffer write_all it'
      else ret it'
  end.

(** string::const_iterator FileDescriptor::write( buffer, write_all ): every
    turn of the loop moves [it] forward or throws, so one turn per byte
    (and one for the empty buffer) is enough. *)
Definition write (buffer : bytes) (write_all : bool) : M nat :=
  write_loop (S (length buffer)) buffer write_all 0%nat.

Section WithBufferSize.

(** [BUFFER_SIZE] is declared in file_descriptor.hh, which is not among the
    sources; it is the length of an array, hence positive. *)
Variable BUFFER_SIZE : positive.

(** string FileDescriptor::read( const size_t limit ) *)
Definition read (limit : nat) : M bytes :=
  fd <- fd_num ;;
  r <- syscall (fun w =>
         let '(rv, buffer, w') :=
           sys_read fd (Nat.min (Pos.to_nat BUFFER_SIZE) limit) w in
         ((rv, buffer), w')) ;;
  bytes_read <- check "read" r.1 ;;
  (if bytes_read =? 0 then set_eof true else ret tt) ;;;
  register_read ;;;
  ret (take (Z.to_nat bytes_read) r.2).

(** The while loop of [read_exactly], with [ret_] the string built so far. *)
Fixpoint read_exactly_loop (fuel : nat) (length_ : nat) (fail_silently : bool)
  (ret_ : bytes) : M bytes :=
  if (length ret_ <? length_)%nat then
    match fuel with
    | O => fun d w => (OutOfFuel, d, w)
    | S fuel' =>
        chunk <- read (length_ - length ret_) ;;
        at_eof <- eof ;;
        if at_eof then
          if fail_silently then ret (ret_ ++ chunk)
          else throw (runtime_error
                        "read_exactly: reached EOF before reaching target")
        else read_exactly_loop fuel' length_ fail_silently (ret_ ++ chunk)
    end
  else if (length ret_ =? length_)%nat then ret ret_
  else throw assertion_failure.

(** string FileDescriptor::read_exactly( length, fail_silently ): a turn of
    the loop that reads nothing ends it, so one turn per byte is enough. *)
Definition read_exactly (length_ : nat) (fail_silently : bool) : M bytes :=
  read_exactly_loop length_ length_ fail_silently [].

End WithBufferSize.

(** uint64_t FileDescriptor::seek(const int64_t offset, const int whence) *)
Definition seek (offset : Z) (wh : whence) : M Z :=
  fd <- fd_num ;;
  rv <- syscall (sys_lseek fd offset wh) ;;
  pos <- check "lseek" rv ;;
  ret (to_uint64 pos).

Definition curr_offset : M Z := seek 0 SEEK_CUR.


(** uint64_t FileDescriptor::filesize() *)
Definition filesize : M Z :=
  prev_offset <- curr_offset ;;
  fsize <- seek 0 SEEK_END ;;
  seek (to_int64 prev_offset) SEEK_SET ;;;
  ret fsize.

(** void FileDescriptor::reset() *)
Definition reset : M unit :=
  seek 0 SEEK_SET ;;;
  set_eof false.

(** void FileDescriptor::attach_epoller(shared_ptr<Epoller> && epoller_ptr):
    [emplace] keeps the entry already stored under the key. *)
Definition attach_epoller (epoller_ptr : addr) : M unit :=
  fun d w =>
    match w_epollers w !! epoller_ptr with
    | None => (Ok tt, d, w)   (* a shared_ptr owns a live object *)
    | Some key =>
        match epollers_ d !! key with
        | None => (Ok tt, with_epollers (<[key := epoller_ptr]> (epollers_ d)) d, w)
        | Some _ => (Ok tt, d, emit (EvWarning key) w)
        end
    end.

(** void FileDescriptor::detach_epoller(const int epoller_fd) *)
Definition detach_epoller (epoller_fd : Z) : M unit :=
  fun d w =>
    match epollers_ d !! epoller_fd with
    | Some _ => (Ok tt, with_epollers (delete epoller_fd (epollers_ d)) d, w)
    | None =>
        (Ok tt, with_epollers (delete epoller_fd (epollers_ d)) d,
         emit (EvWarning epoller_fd) w)
    end.

(** ** Vocabulary of the properties *)

(** "Calling read repeatedly until the end-of-file flag is set": the reader
    of the round-trip property, collecting what the reads return. *)
Fixpoint read_until_eof (BUFFER_SIZE : positive) (fuel : nat) (limit : nat)
  (acc : bytes) : M bytes :=
  match fuel with
  | O => fun d w => (OutOfFuel, d, w)
  | S fuel' =>
      chunk <- read BUFFER_SIZE limit ;;
      at_eof <- eof ;;
      if at_eof then ret (acc ++ chunk)
      else read_until_eof BUFFER_SIZE fuel' limit (acc ++ chunk)
  end.

(** The object and the world after a [read] that the kernel granted [n]
    bytes. *)
Definition after_read (d : FileDescriptor) (n : nat) : FileDescriptor :=
  mk_FileDescriptor (fd_ d) (eof_ d || (n =? 0)%nat) (read_count_ d + 1)
    (write_count_ d) (epollers_ d).

Definition consumed (fd : Z) (f : ofile) (n : nat) (w : World) : World :=
  set_fds (<[fd := mk_ofile (obj_consume (of_obj f) n) (of_cloexec f)]>
             (w_fds w))
          (set_oracle (tail (w_oracle w)) w).

(** The message of the exception [read_exactly] throws at end of file. *)
Definition eof_message : string :=
  "read_exactly: reached EOF before reaching target".




(** The back-references whose Epoller is still alive. *)
Definition live_refs (d : FileDescriptor) (w : World) : list (Z * addr) :=
  filter (fun it => is_Some (w_epollers w !! it.2)) (map_to_list (epollers_ d)).

(** The deregister calls [close] makes: one per live back-reference. *)
Definition notifications (d : FileDescriptor) (w : World) : list event :=
  (fun it : Z * addr => EvDeregister it.2 (fd_ d)) <$> live_refs d w.

(** Every live back-reference is stored under its Epoller's own descriptor
    number, the key [attach_epoller] gives it. *)
Definition keyed (d : FileDescriptor) (w : World) : bool :=
  forallb (fun it => match w_epollers w !! it.2 with
                     | Some key => key =? it.1
                     | None => true
                     end)
          (map_to_list (epollers_ d)).

(** [detach_epoller] as the specification words it: the entry is removed
    and the Epoller is told to deregister the descriptor. *)
Definition detach_asks_to_stop_watching (d : FileDescriptor) (w : World)
  (k : Z) : Prop :=
  forall p, epollers_ d !! k = Some p -> is_Some (w_epollers w !! p) ->
    epollers_ (detach_epoller k d w).1.2 !! k = None /\
    EvDeregister p (fd_ d) ∈ w_trace (detach_epoller k d w).2.

(** What a call added to the trace. *)
Definition new_events (before after : World) : list event :=
  drop (length (w_trace before)) (w_trace after).

(** The kernel transfers at least one byte in each coming call and fails
    none. *)
Definition progress (c : choice) : bool :=
  match c with
  | Upto (S _) => true
  | _ => false
  end.

(** ** Concrete states used by the examples *)

Definition byte_a : Byte.byte := Byte.x61.
Definition byte_b : Byte.byte := Byte.x62.
Definition byte_c : Byte.byte := Byte.x63.

(** Descriptor 3 is open on an empty stream, descriptor 4 on a file of three
    bytes read up to offset 1; the Epoller object at address 1 is alive and
    has descriptor number 7. *)
Definition world0 : World :=
  mk_World (<[3 := mk_ofile (Stream []) true]>
              (<[4 := mk_ofile (File [byte_a; byte_b; byte_c] 1) true]> ∅))
           [] (<[1%nat := 7]> ∅) [].

Definition fresh (fd : Z) : FileDescriptor := mk_FileDescriptor fd false 0 0 ∅.

(** Descriptor 3 after [attach_epoller] of the Epoller at address 1. *)
Definition attached3 : FileDescriptor :=
  mk_FileDescriptor 3 false 0 0 (<[7 := 1%nat]> ∅).

(** Descriptor 3 with three back-references: to the Epollers at addresses
    1 and 2, alive in [world1], and to one at address 5 that is gone. *)
Definition world1 : World :=
  mk_World (<[3 := mk_ofile (Stream []) true]> ∅)
           [] (<[1%nat := 7]> (<[2%nat := 8]> ∅)) [].

Definition attached_many : FileDescriptor :=
  mk_FileDescriptor 3 false 0 0
    (<[7 := 1%nat]> (<[8 := 2%nat]> (<[9 := 5%nat]> ∅))).

(** Descriptor 3 on a stream holding three bytes, with a kernel that hands
    out two bytes, then up to five, then one at a time. *)
Definition world_abc : World :=
  mk_World (<[3 := mk_ofile (Stream [byte_a; byte_b; byte_c]) true]> ∅)
           [Upto 2; Upto 5; Upto 1; Upto 1] ∅ [].

(** Descriptor 3 on an empty stream, with a kernel that takes or gives one
    byte, then up to five, then two, then one. *)
Definition world_slow : World :=
  mk_World (<[3 := mk_ofile (Stream []) true]> ∅)
           [Upto 1; Upto 5; Upto 2; Upto 1; Upto 3] ∅ [].

(** Descriptor 3 with a kernel that fails the next call. *)
Definition world_faulty : World :=
  mk_World (<[3 := mk_ofile (Stream []) true]> ∅)
           [Fault] (<[1%nat := 7]> ∅) [].

(** ** The other members of the class *)

(** FileDescriptor::FileDescriptor( FileDescriptor && other ): the new
    object and what is left of [other].  The move leaves other.epollers_
    in a state the language does not fix; it is the parameter
    [leftover]. *)
Definition move_construct (leftover : gmap Z addr) (other : FileDescriptor)
  : FileDescriptor * FileDescriptor :=
  (mk_FileDescriptor (fd_ other) (eof_ other) (read_count_ other)
     (write_count_ other) (epollers_ other),
   mk_FileDescriptor (-1) (eof_ other) (read_count_ other)
     (write_count_ other) leftover).

(** The file status flags of the open descriptors, the part of the kernel
    that fcntl(F_GETFL) reads and fcntl(F_SETFL) writes. *)

(** fcntl(fd, F_GETFL) *)
Definition sys_fcntl_getfl (fd : Z) (flags : gmap Z Z) : Z :=
  match flags !! fd with
  | Some fl => fl
  | None => -1
  end.

(** fcntl(fd, F_SETFL, fl) *)
Definition sys_fcntl_setfl (fd : Z) (fl : Z) (flags : gmap Z Z)
  : Z * gmap Z Z :=
  match flags !! fd with
  | Some _ => (0, <[fd := fl]> flags)
  | None => (-1, flags)
  end.

(** void FileDescriptor::set_blocking( const bool block ), with the value of
    the constant O_NONBLOCK of fcntl.h as a parameter. *)
Definition set_blocking (O_NONBLOCK : Z) (block : bool) (d : FileDescriptor)
  (flags : gmap Z Z) : result unit * gmap Z Z :=
  match CheckSystemCall "fcntl F_GETFL" (sys_fcntl_getfl (fd_ d) flags) with
  | Ok fl =>
      let fl' := if block then Z.land fl (Z.lnot O_NONBLOCK)
                 else Z.lor fl O_NONBLOCK in
      let '(rv, flags') := sys_fcntl_setfl (fd_ d) fl' flags in
      match CheckSystemCall "fcntl F_SETFL" rv with
      | Ok _ => (Ok tt, flags')
      | Throw e => (Throw e, flags')
      | OutOfFuel => (OutOfFuel, flags')
      end
  | Throw e => (Throw e, flags)
  | OutOfFuel => (OutOfFuel, flags)
  end.

(** *** More vocabulary *)

(** A run of attach and detach calls on one descriptor. *)
Inductive epoller_call : Type :=
| Attach (epoller_ptr : addr)
| Detach (epoller_fd : Z).

Definition call (c : epoller_call) : M unit :=
  match c with
  | Attach p => attach_epoller p
  | Detach k => detach_epoller k
  end.

Fixpoint calls (cs : list epoller_call) : M unit :=
  match cs with
  | [] => ret tt
  | c :: rest => call c ;;; calls rest
  end.

(** An object that writes extend at its end: a stream, or a file whose
    offset is its size. *)
Definition appending (o : kobj) : bool :=
  match o with
  | Stream _ => true
  | File data off => (off =? length data)%nat
  end.

Definition seekable (o : kobj) : bool :=
  match o with
  | Stream _ => false
  | File _ _ => true
  end.

(** The bytes an object holds, read or not. *)
Definition obj_data (o : kobj) : bytes :=
  match o with
  | Stream q => q
  | File data _ => data
  end.

(** How often the kernel was asked to close [fd]. *)
Definition is_close (fd : Z) (e : event) : bool :=
  match e with
  | EvClose fd' => fd' =? fd
  | _ => false
  end.

Definition closes (fd : Z) (trace : list event) : nat :=
  length (filter (fun e => is_close fd e = true) trace).

(** Descriptor 3 with a back-reference, under key 7, to an Epoller at
    address 5 that is gone; in [world0] the descriptor number 7 is that of
    the live Epoller at address 1. *)
Definition stale3 : FileDescriptor :=
  mk_FileDescriptor 3 false 0 0 (<[7 := 5%nat]> ∅).

(** Descriptor 4 of [world0] with a kernel that moves one byte, then two,
    then whatever is asked. *)
Definition world_file : World :=
  mk_World (<[4 := mk_ofile (File [byte_a; byte_b; byte_c] 3) true]> ∅)
           [Upto 1; Upto 2] ∅ [].

End Util.

(** ** The launcher of the media servers *)

Module Servers.

Inductive outcome (A : Type) : Type :=
| Returned (a : A)
| Thrown (e : exn).

Arguments Returned {A} a.
Arguments Thrown {A} e.

(** *** The database

    PostgreSQL and pqxx are outside the repository; the statements sent to
    them are in the source.  The table [puffer_experiment] has a serial
    primary key [id] and a unique [hash].  Each call that can throw is a
    [step]; which of them throw is part of the environment. *)

Record Row : Type := mk_Row { row_id : Z; row_hash : string; row_data : string }.

Inductive step : Type :=
| StHash            (* sha256(json_str) *)
| StConnString      (* postgres_connection_string(config[...]) *)
| StConnect         (* pqxx::connection db_conn *)
| StCreateTable     (* CREATE TABLE IF NOT EXISTS, and its commit *)
| StPrepare         (* db_conn.prepare, twice *)
| StBegin           (* pqxx::work db_work *)
| StSelect          (* select_id *)
| StInsert          (* insert_json *)
| StCommit.         (* db_work.commit() *)

Definition step_name (s : step) : string :=
  match s with
  | StHash => "sha256"
  | StConnString => "postgres_connection_string"
  | StConnect => "connection"
  | StCreateTable => "create_table"
  | StPrepare => "prepare"
  | StBegin => "work"
  | StSelect => "select_id"
  | StInsert => "insert_json"
  | StCommit => "commit"
  end.

Record Env : Type := mk_Env {
  table : list Row;               (* committed rows of puffer_experiment *)
  uncommitted : list Row;         (* rows of the open transaction *)
  next_serial : Z;                (* the sequence behind id SERIAL *)
  faulty : step -> bool;          (* the steps that throw *)
  stderr : list (string * exn)    (* print_exception *)
}.

Definition DB (A : Type) : Type := Env -> outcome A * Env.

Definition ret {A} (a : A) : DB A := fun env => (Returned a, env).

Definition bind {A B} (m : DB A) (k : A -> DB B) : DB B :=
  fun env =>
    match m env with
    | (Returned a, env') => k a env'
    | (Thrown e, env') => (Thrown e, env')
    end.

#[local] Notation "x <- m ;; k" := (bind m (fun x => k))
  (at level 100, m at next level, right associativity).
#[local] Notation "m ;;; k" := (bind m (fun _ => k))
  (at level 100, right associativity).

(** A call into a library: it throws when the environment says so. *)
Definition ext (s : step) : DB unit :=
  fun env =>
    if faulty env s then (Thrown (library_error (step_name s)), env)
    else (Returned tt, env).

(** SELECT id FROM puffer_experiment WHERE hash = $1; one field per row. *)
Definition select_id (hash : string) : DB (list (list Z)) :=
  ext StSelect ;;;
  fun env =>
    (Returned (map (fun r => [row_id r])
                 (filter (fun r => row_hash r = hash)
                         (table env ++ uncommitted env))), env).

(** INSERT INTO puffer_experiment (hash, data) VALUES ($1, $2) RETURNING id;
    the sequence moves on even when the row is refused. *)
Definition insert_json (hash data : string) : DB (list (list Z)) :=
  ext StInsert ;;;
  fun env =>
    let id := next_serial env in
    let env1 := mk_Env (table env) (uncommitted env) (id + 1) (faulty env)
                  (stderr env) in
    if existsb (fun r => bool_decide (row_hash r = hash)
                         || bool_decide (row_id r = id))
               (table env ++ uncommitted env)
    then (Thrown (library_error "unique_violation"), env1)
    else (Returned [[id]],
          mk_Env (table env) (uncommitted env ++ [mk_Row id hash data])
            (id + 1) (faulty env) (stderr env)).

(** pqxx::work db_work(db_conn): a transaction starts with no row of its
    own. *)
Definition begin_work : DB unit :=
  ext StBegin ;;;
  fun env =>
    (Returned tt,
     mk_Env (table env) [] (next_serial env) (faulty env) (stderr env)).

(** db_work.commit() *)
Definition commit : DB unit :=
  ext StCommit ;;;
  fun env =>
    (Returned tt,
     mk_Env (table env ++ uncommitted env) [] (next_serial env) (faulty env)
       (stderr env)).

(** The end of a transaction object that was not committed. *)
Definition rollback (env : Env) : Env :=
  mk_Env (table env) [] (next_serial env) (faulty env) (stderr env).

Definition INT_MIN : Z := - 2 ^ 31.
Definition INT_MAX : Z := 2 ^ 31 - 1.

(** The int that an arithmetic result is stored as: the wrap-around of
    two's complement.  (The language leaves the overflow of an int
    undefined; the properties that depend on the value of an int assume
    that it stays within [INT_MIN] and [INT_MAX].) *)
Definition wrap_int (z : Z) : Z := (z + 2 ^ 31) mod 2 ^ 32 - 2 ^ 31.

(** field.as<int>() *)
Definition as_int (z : Z) : DB Z :=
  fun env =>
    if (INT_MIN <=? z) && (z <=? INT_MAX) then (Returned z, env)
    else (Thrown (library_error "as<int>"), env).

(** r.size() == 1 and r[0].size() == 1, and then r[0][0] *)
Definition single_field (r : list (list Z)) : option Z :=
  match r with
  | [[z]] => Some z
  | _ => None
  end.

(** Modelled from the spec: [print_exception] of exception.hh, which is not
    among the sources.  "caught and logged only": a line on cerr. *)
Definition print_exception (where_ : string) (e : exn) (env : Env) : Env :=
  mk_Env (table env) (uncommitted env) (next_serial env) (faulty env)
    (stderr env ++ [(where_, e)]).

(** *** The configuration and the children

    The fields of the YAML document that [main] reads in its loops. *)
Record Experiment : Type := mk_Experiment {
  fingerprint : string;
  num_servers : N       (* unsigned int *)
}.

Record Config : Type := mk_Config {
  enable_logging : bool;
  log_dir : string;
  experiments : list Experiment
}.

Record Child : Type := mk_Child { program : string; args : list string }.

(** What [main] and [retrieve_expt_id] call and the sources do not hold:
    the digest that [sha256] gets from CryptoPP, the script that prints an
    experiment as JSON, the file system, the YAML loader and the wait for
    the children. *)
Record Outside : Type := mk_Outside {
  sha256 : string -> string;               (* hex digest of the input *)
  run : string -> list string -> string;   (* the output of the program *)
  absolute : string -> string;             (* fs::absolute *)
  LoadFile : string -> Config;             (* YAML::LoadFile *)
  self_src : string;       (* canonical grandparent of /proc/self/exe *)
  wait : list Child -> Z                   (* ProcessManager::wait *)
}.

Section WithOutside.

Variable X : Outside.

(** The try block of [retrieve_expt_id]: [Some id] is a return from inside
    it, [None] is falling out of it. *)
Definition retrieve_body (json_str : string) : DB (option Z) :=
  ext StHash ;;;
  let hash := sha256 X json_str in
  ext StConnString ;;;
  ext StConnect ;;;
  ext StCreateTable ;;;
  ext StPrepare ;;;
  begin_work ;;;
  r <- select_id hash ;;
  match single_field r with
  | Some field => id <- as_int field ;; ret (Some id)
  | None =>
      r <- insert_json hash json_str ;;
      commit ;;;
      match single_field r with
      | Some field => id <- as_int field ;; ret (Some id)
      | None => ret None
      end
  end.

(** int retrieve_expt_id(const string & json_str) *)
Definition retrieve_expt_id (json_str : string) (env : Env) : Z * Env :=
  match retrieve_body json_str env with
  | (Returned (Some id), env') => (id, rollback env')
  | (Returned None, env') => (-1, rollback env')
  | (Thrown e, env') => (-1, print_exception "retrieve_expt_id" e (rollback env'))
  end.

(** std::to_string(int) *)
Definition to_string (z : Z) : string :=
  NilEmpty.string_of_int (Z.to_int z).

(** fs::path::is_absolute on a POSIX path: it begins with the directory
    separator. *)
Definition is_absolute (p : string) : bool :=
  match p with
  | String c _ => Ascii.eqb c "/"%char
  | EmptyString => false
  end.

(** fs::path::has_filename: the path is not empty and does not end with the
    directory separator. *)
Fixpoint has_filename (p : string) : bool :=
  match p with
  | EmptyString => false
  | String c EmptyString => negb (Ascii.eqb c "/"%char)
  | String _ rest => has_filename rest
  end.

(** fs::path::operator/ of std::filesystem on POSIX paths (filesystem.hh,
    which names the library as [fs], is not among the sources): an absolute
    right-hand side replaces the left-hand side; otherwise the separator
    is added only after a left-hand side that has a file name, that is,
    not after an empty one or one that ends with the separator. *)
Definition path_join (dir rel : string) : string :=
  if is_absolute rel then rel
  else if has_filename dir then dir +:+ "/" +:+ rel
  else dir +:+ rel.

Definition log_stems : list string :=
  ["active_streams"; "rebuffer_events"; "client_buffer"; "client_sysinfo";
   "video_sent"; "video_acked"].

(** Modelled from the spec: [ProcessManager::run_as_child] of
    child_process.cc, which is not among the sources.  "creates a new
    process running executablePath with argv/env; records a ChildRecord":
    the children are kept in the order of their creation, and creation
    succeeds. *)
Definition run_as_child (program_ : string) (args_ : list string)
  (proc_manager : list Child) : list Child :=
  proc_manager ++ [mk_Child program_ args_].

(** The state of [main] that its loops change. *)
Record Launch : Type := mk_Launch {
  server_id : Z;                 (* int *)
  proc_manager : list Child;
  env_ : Env
}.

Section WithConfig.

Variable yaml_config : string.
Variable config : Config.

Definition src_path : string := self_src X.
Definition log_reporter : string := path_join src_path "monitoring/log_reporter".
Definition expt_json : string := path_join src_path "scripts/expt_json.py".
Definition ws_media_server : string :=
  path_join src_path "media-server/ws_media_server".

(** The inner loop over [log_stems], run when there is an influxdb_client. *)
Definition run_log_reporters (server_id_ : Z) (pm : list Child) : list Child :=
  foldl (fun pm log_stem =>
           let log_format := path_join (log_dir config) (log_stem +:+ ".conf") in
           let log_path :=
             path_join (log_dir config)
               (log_stem +:+ "." +:+ to_string server_id_ +:+ ".log") in
           run_as_child log_reporter
             [log_reporter; yaml_config; log_format; log_path] pm)
        pm log_stems.

(** One turn of the loop over [i]. *)
Definition run_server (expt_id : Z) (st : Launch) : Launch :=
  let server_id_ := wrap_int (server_id st + 1) in     (* server_id++ *)
  let pm1 :=
    run_as_child ws_media_server
      [ws_media_server; yaml_config; to_string server_id_; to_string expt_id]
      (proc_manager st) in
  let pm2 := if enable_logging config then run_log_reporters server_id_ pm1
             else pm1 in
  mk_Launch server_id_ pm2 (env_ st).

(** for (unsigned int i = 0; i < num_servers; i++) *)
Fixpoint run_servers (count : nat) (expt_id : Z) (st : Launch) : Launch :=
  match count with
  | O => st
  | S count' => run_servers count' expt_id (run_server expt_id st)
  end.

(** One turn of the loop over the experiments. *)
Definition run_experiment (st : Launch) (expt : Experiment) : Launch :=
  let json_str := run X expt_json [expt_json; fingerprint expt] in
  let '(expt_id, env') := retrieve_expt_id json_str (env_ st) in
  run_servers (N.to_nat (num_servers expt)) expt_id
    (mk_Launch (server_id st) (proc_manager st) env').

(** The loops of [main], from [int server_id = 0] to the end of the loop
    over the experiments. *)
Definition launch (env : Env) : Launch :=
  foldl run_experiment (mk_Launch 0 [] env) (experiments config).

End WithConfig.

(** What [main] leaves behind: its exit status, the children it created and
    the environment. *)
Inductive Exit : Type :=
| Aborted                                  (* abort() *)
| Exited (status : Z) (children : list Child) (env : Env).

Definition EXIT_FAILURE : Z := 1.

(** int main(int argc, char * argv[]): the influxdb_client only sends
    measurements, which are left out. *)
Definition main (argv : list string) (env : Env) : Exit :=
  match argv with
  | [] => Aborted
  | [_; arg] =>
      let yaml_config := absolute X arg in
      let config := LoadFile X yaml_config in
      let st := launch yaml_config config env in
      Exited (wait X (proc_manager st)) (proc_manager st) (env_ st)
  | _ => Exited EXIT_FAILURE [] env
  end.

(** *** Vocabulary of the properties *)

Definition spawned (e : Exit) : list Child :=
  match e with
  | Aborted => []
  | Exited _ children _ => children
  end.

(** The children that run the media server. *)
Definition media_servers (children : list Child) : list Child :=
  filter (fun c => program c = ws_media_server) children.

(** The media server with server id [p.1] and experiment id [p.2]. *)
Definition media_child (yaml_config : string) (p : Z * Z) : Child :=
  mk_Child ws_media_server
    [ws_media_server; yaml_config; to_string p.1; to_string p.2].

(** The log reporters of the server with id [sid]. *)
Definition reporters (yaml_config : string) (config : Config) (sid : Z)
  : list Child :=
  map (fun log_stem =>
         mk_Child log_reporter
           [log_reporter; yaml_config;
            path_join (log_dir config) (log_stem +:+ ".conf");
            path_join (log_dir config)
              (log_stem +:+ "." +:+ to_string sid +:+ ".log")])
      log_stems.

(** What one turn of the loop over [i] creates. *)
Definition block (yaml_config : string) (config : Config) (p : Z * Z)
  : list Child :=
  media_child yaml_config p
    :: (if enable_logging config then reporters yaml_config config p.1
        else []).

(** The server ids [first], [first + 1], ... paired with the experiment
    ids. *)
Fixpoint numbered (first : Z) (eids : list Z) : list (Z * Z) :=
  match eids with
  | [] => []
  | eid :: rest => (first, eid) :: numbered (first + 1) rest
  end.

(** The server ids as the loop counts them, an int incremented before each
    use, starting after [prev], paired with the experiment ids. *)
Fixpoint counted (prev : Z) (eids : list Z) : list (Z * Z) :=
  match eids with
  | [] => []
  | eid :: rest =>
      (wrap_int (prev + 1), eid) :: counted (wrap_int (prev + 1)) rest
  end.

(** The int [server_id] after [n] increments. *)
Definition advance (n : nat) (z : Z) : Z :=
  Nat.iter n (fun z => wrap_int (z + 1)) z.


(** The scenario of the specification: exactly two tracked processes, with
    server ids 1 and 2 and one experiment id. *)
Definition two_workers (yaml_config : string) (children : list Child) : Prop :=
  exists eid, children = [media_child yaml_config (1, eid);
                          media_child yaml_config (2, eid)].

End WithOutside.

(** The experiment ids that the loop over the experiments obtains, one per
    server, and the environment it ends in. *)
Fixpoint expt_ids (X : Outside) (exps : list Experiment) (env : Env)
  : list Z * Env :=
  match exps with
  | [] => ([], env)
  | e :: rest =>
      let r := retrieve_expt_id X
                 (run X (expt_json X) [expt_json X; fingerprint e]) env in
      let rs := expt_ids X rest r.2 in
      (replicate (N.to_nat (num_servers e)) r.1 ++ rs.1, rs.2)
  end.


Definition total_servers (config : Config) : nat :=
  foldr (fun e n => (N.to_nat (num_servers e) + n)%nat) 0%nat
        (experiments config).

(** *** Concrete states used by the examples *)

Definition config_two (logging : bool) : Config :=
  mk_Config logging "/var/log"
    [mk_Experiment "{abr: linear_bba}" 2].

Definition outside0 (logging : bool) : Outside :=
  mk_Outside (fun s => "#" +:+ s)
             (fun _ argv => "{" +:+ default "" (argv !! 1%nat) +:+ "}")
             (fun p => "/etc/" +:+ p)
             (fun _ => config_two logging)
             "/opt/puffer/src"
             (fun _ => 0).

(** An empty database that works, and one that cannot be reached. *)
Definition env_up : Env := mk_Env [] [] 1 (fun _ => false) [].

Definition env_down : Env :=
  mk_Env [] [] 1
    (fun s => match s with StConnect => true | _ => false end) [].

(** *** More vocabulary *)

(** No step up to the SELECT throws. *)
Definition reaches_select (env : Env) : bool :=
  forallb (fun s => negb (faulty env s))
    [StHash; StConnString; StConnect; StCreateTable; StPrepare; StBegin;
     StSelect].

(** The table holds one row with the hash of [json_str], and [id] is its
    identifier, an int that a lookup can read. *)
Definition known (X : Outside) (json_str : string) (id : Z) (env : Env)
  : Prop :=
  reaches_select env = true /\
  exists r,
    filter (fun r => row_hash r = sha256 X json_str) (table env) = [r] /\
    row_id r = id /\
    (INT_MIN <=? id) && (id <=? INT_MAX) = true.

(** No row of [rows] has the hash [h] or the identifier [id]. *)
Definition fresh_in (h : string) (id : Z) (rows : list Row) : Prop :=
  Forall (fun r => row_hash r <> h /\ row_id r <> id) rows.

(** The environment after a run of lookups. *)
Definition lookups (X : Outside) (jsons : list string) (env : Env) : Env :=
  foldl (fun env json_str => (retrieve_expt_id X json_str env).2) env jsons.

(** The table obeys its constraints: hash is UNIQUE, id is the PRIMARY
    KEY. *)
Definition constraints_hold (env : Env) : Prop :=
  NoDup (row_hash <$> table env) /\ NoDup (row_id <$> table env).

(** The children that do not run the media server. *)
Definition other_children (X : Outside) (children : list Child) : list Child :=
  filter (fun c => program c <> ws_media_server X) children.

(** The log reporter of the server [sid] for the log [log_stem]. *)
Definition reporter_child (X : Outside) (yaml_config : string)
  (config : Config) (sid : Z) (log_stem : string) : Child :=
  mk_Child (log_reporter X)
    [log_reporter X; yaml_config;
     path_join (log_dir config) (log_stem +:+ ".conf");
     path_join (log_dir config)
       (log_stem +:+ "." +:+ to_string sid +:+ ".log")].

(** The server ids of a run that starts [n] servers. *)
Definition server_ids (n : nat) : list Z := Z.of_nat <$> seq 1 n.

(** The place of the output log among the arguments of a log reporter. *)
Definition log_path_of (c : Child) : option string := args c !! 3%nat.

(** A database with two experiments, and a configuration that runs three
    experiments, the first and the last with the same settings. *)
Definition env_two : Env :=
  mk_Env [mk_Row 1 "#{a}" "{a}"; mk_Row 2 "#{b}" "{b}"] [] 3
    (fun _ => false) [].

Definition config_three : Config :=
  mk_Config true "/var/log"
    [mk_Experiment "a" 1; mk_Experiment "c" 2; mk_Experiment "a" 1].

Definition outside3 : Outside :=
  mk_Outside (fun s => "#" +:+ s)
             (fun _ argv => "{" +:+ default "" (argv !! 1%nat) +:+ "}")
             (fun p => "/etc/" +:+ p)
             (fun _ => config_three)
             "/opt/puffer/src"
             (fun _ => 0).

End Servers.

(** * Properties of the file descriptor *)

Import Util.

(** ** close, attach and detach *)

Lemma construct_world0 : construct 3 world0 = (Ok (fresh 3), world0).
Proof. reflexivity. Qed.

Lemma attach_world0 :
  attach_epoller 1%nat (fresh 3) world0 = (Ok tt, attached3, world0).
Proof. reflexivity. Qed.

Lemma notify_epollers_spec fd items w :
  notify_epollers fd items w =
  mk_World (w_fds w) (w_oracle w) (w_epollers w)
    (w_trace w ++
       ((fun it : Z * addr => EvDeregister it.2 fd) <$>
          filter (fun it : Z * addr => is_Some (w_epollers w !! it.2)) items)).
Proof.
  revert w. induction items as [|it items IH]; intros w.
  - destruct w; simpl. by rewrite app_nil_r.
  - unfold notify_epollers in *. simpl. rewrite IH. clear IH.
    unfold notify_one.
    destruct (w_epollers w !! it.2) as [key|] eqn:E.
    + rewrite filter_cons_True by (cbn beta; rewrite E; eauto).
      simpl. by rewrite <- app_assoc.
    + rewrite filter_cons_False
        by (cbn beta; rewrite E; intros [? ?]; discriminate).
      by destruct w.
Qed.

Lemma sys_close_spec fd w :
  exists rv w', sys_close fd w = (rv, w') /\
    (rv = 0 \/ rv = -1) /\
    w_trace w' = w_trace w ++ [EvClose fd] /\
    w_fds w' !! fd = None /\
    w_epollers w' = w_epollers w.
Proof.
  unfold sys_close, pop_choice.
  destruct (w_fds (emit (EvClose fd) w) !! fd) as [f|] eqn:E.
  - destruct (head (w_oracle (emit (EvClose fd) w))) as [[|n]|];
      eexists _, _; (split; [reflexivity|]); simpl;
      rewrite lookup_delete_eq; auto.
  - eexists _, _. split; [reflexivity|]. simpl in *. auto.
Qed.

Lemma close_spec d w :
  0 <= fd_ d ->
  exists rv w',
    sys_close (fd_ d) (notify_epollers (fd_ d) (map_to_list (epollers_ d)) w)
      = (rv, w') /\
    ((rv = 0 /\ close d w = (Ok tt, with_fd (-1) d, w')) \/
     (rv = -1 /\ close d w = (Throw (unix_error "close"), d, w'))).
Proof.
  intros Hfd. unfold close.
  destruct (fd_ d <? 0) eqn:E; [lia|].
  destruct (sys_close_spec (fd_ d)
              (notify_epollers (fd_ d) (map_to_list (epollers_ d)) w))
    as (rv & w' & Hc & Hrv & _).
  exists rv, w'. split; [exact Hc|]. rewrite Hc.
  destruct Hrv as [-> | ->]; [left | right]; split; reflexivity.
Qed.

Lemma new_events_refl w : new_events w w = [].
Proof. unfold new_events. apply drop_all. Qed.

Lemma new_events_app w w' l :
  w_trace w' = w_trace w ++ l -> new_events w w' = l.
Proof. unfold new_events. intros ->. by rewrite drop_app_length. Qed.

(** C5, as stated, fails: when the kernel fails the first [close], it
    throws and leaves the descriptor valid; the second [close] raises an
    error as well, after it has told the Epoller to deregister and asked the
    kernel to close the descriptor once more. *)
Lemma close_after_failed_close :
  let d1 := (close attached3 world_faulty).1.2 in
  let w1 := (close attached3 world_faulty).2 in
  (close attached3 world_faulty).1.1 = Throw (unix_error "close") /\
  d1 = attached3 /\
  (close d1 w1).1.1 = Throw (unix_error "close") /\
  new_events w1 (close d1 w1).2 = [EvDeregister 1%nat 3; EvClose 3] /\
  w_trace (destroy d1 w1).2
  = [EvDeregister 1%nat 3; EvClose 3; EvDeregister 1%nat 3; EvClose 3;
     EvException "FileDescriptor" (unix_error "close")].
Proof. repeat split; reflexivity. Qed.

(** C5, amended: after a first [close] that returned, on any descriptor,
    the descriptor is invalid and a second [close] does nothing: no error,
    no event (neither a deregistration nor a release), the same object and
    the same world.  The two calls in a row do what the first alone does. *)
Theorem close_idempotent (d d1 : FileDescriptor) (w w1 : World) :
  close d w = (Ok tt, d1, w1) ->
  fd_ d1 < 0 /\
  close d1 w1 = (Ok tt, d1, w1) /\
  new_events w1 (close d1 w1).2 = [] /\
  (close ;;; close) d w = (Ok tt, d1, w1).
Proof.
  intros H.
  assert (Hfd : fd_ d1 < 0).
  { revert H. unfold close.
    destruct (fd_ d <? 0) eqn:E.
    - intros [= <- <-]. by apply Z.ltb_lt.
    - destruct (sys_close _ _) as [rv w2].
      destruct (CheckSystemCall "close" rv); intros [= <- <-].
      simpl. lia. }
  assert (Hagain : close d1 w1 = (Ok tt, d1, w1)).
  { unfold close. by apply Z.ltb_lt in Hfd as ->. }
  split; [exact Hfd|]. split; [exact Hagain|]. split.
  - rewrite Hagain. apply new_events_refl.
  - unfold bind. by rewrite H.
Qed.

Lemma close_idempotent_witness :
  close (close attached3 world0).1.2 (close attached3 world0).2
  = (Ok tt, (close attached3 world0).1.2, (close attached3 world0).2).
Proof.
  apply (close_idempotent attached3 (close attached3 world0).1.2
           world0 (close attached3 world0).2).
  reflexivity.
Defined.

(** C3, as stated, fails: descriptor 3 is attached to the live Epoller at
    address 1 under key 7, and [detach_epoller 7] leaves the trace empty. *)
Lemma detach_does_not_deregister :
  ~ detach_asks_to_stop_watching attached3 world0 7.
Proof.
  intros H. destruct (H 1%nat) as [_ Hin].
  - reflexivity.
  - by exists 7.
  - vm_compute in Hin. by apply elem_of_nil in Hin.
Qed.

(** C3, amended: detaching an attached key removes that back-reference and
    nothing else; the object is otherwise the same, no exception, and the
    world is untouched: no call to the Epoller, no message. *)
Theorem detach_removes_back_reference (d : FileDescriptor) (w : World)
  (k : Z) (p : addr) :
  epollers_ d !! k = Some p ->
  exists d',
    detach_epoller k d w = (Ok tt, d', w) /\
    epollers_ d' !! k = None /\
    (forall j, j <> k -> epollers_ d' !! j = epollers_ d !! j) /\
    (fd_ d', eof_ d', read_count_ d', write_count_ d')
      = (fd_ d, eof_ d, read_count_ d, write_count_ d) /\
    new_events w (detach_epoller k d w).2 = [].
Proof.
  intros H. unfold detach_epoller. rewrite H.
  eexists. split; [reflexivity|]. simpl.
  split; [apply lookup_delete_eq|].
  split; [intros j Hj; by apply lookup_delete_ne|].
  split; [reflexivity|]. apply new_events_refl.
Qed.

Lemma detach_removes_back_reference_witness :
  exists d',
    detach_epoller 7 attached3 world0 = (Ok tt, d', world0) /\
    epollers_ d' !! 7 = None /\
    (forall j, j <> 7 -> epollers_ d' !! j = epollers_ attached3 !! j) /\
    (fd_ d', eof_ d', read_count_ d', write_count_ d')
      = (fd_ attached3, eof_ attached3, read_count_ attached3,
         write_count_ attached3) /\
    new_events world0 (detach_epoller 7 attached3 world0).2 = [].
Proof.
  apply (detach_removes_back_reference attached3 world0 7 1%nat).
  reflexivity.
Defined.

Lemma keyed_spec d w :
  keyed d w = true ->
  forall k p key,
    epollers_ d !! k = Some p -> w_epollers w !! p = Some key -> key = k.
Proof.
  unfold keyed. rewrite forallb_forall. intros H k p key Hk Hp.
  specialize (H (k, p)). simpl in H. rewrite Hp in H.
  apply Z.eqb_eq, H, list_elem_of_In. by apply elem_of_map_to_list.
Qed.

Lemma keyed_intro d w :
  (forall k p key,
     epollers_ d !! k = Some p -> w_epollers w !! p = Some key -> key = k) ->
  keyed d w = true.
Proof.
  intros H. unfold keyed. apply forallb_forall. intros [k p] Hin. simpl.
  apply list_elem_of_In, elem_of_map_to_list in Hin.
  destruct (w_epollers w !! p) as [key|] eqn:E; [|done].
  apply Z.eqb_eq. by apply (H k p).
Qed.

(** [keyed] holds of a new descriptor and is kept by attaching and by
    detaching. *)
Lemma keyed_construct fd w d w' :
  construct fd w = (Ok d, w') -> keyed d w' = true.
Proof.
  unfold construct. destruct (sys_fcntl_cloexec fd w) as [rv w1].
  destruct (CheckSystemCall _ rv); intros [= <- <-]. reflexivity.
Qed.

Lemma keyed_attach p d w :
  keyed d w = true ->
  keyed (attach_epoller p d w).1.2 (attach_epoller p d w).2 = true.
Proof.
  intros H. unfold attach_epoller.
  destruct (w_epollers w !! p) as [key|] eqn:Hp; [|exact H].
  destruct (epollers_ d !! key) as [q|] eqn:Hk; simpl.
  - apply keyed_intro. intros k q' key'. simpl. apply (keyed_spec d w H).
  - apply keyed_intro. intros k q' key'. simpl.
    destruct (decide (k = key)) as [->|Hne].
    + rewrite lookup_insert_eq. intros [= <-]. congruence.
    + rewrite lookup_insert_ne by done. apply (keyed_spec d w H).
Qed.

Lemma keyed_detach k d w :
  keyed d w = true ->
  keyed (detach_epoller k d w).1.2 (detach_epoller k d w).2 = true.
Proof.
  intros H.
  assert (Hdel : keyed (with_epollers (delete k (epollers_ d)) d) w = true).
  { apply keyed_intro. intros k' p key. simpl.
    intros [_ Hk]%lookup_delete_Some. by apply (keyed_spec d w H). }
  unfold detach_epoller. destruct (epollers_ d !! k); simpl; exact Hdel.
Qed.

Lemma elem_of_notifications d w e :
  e ∈ notifications d w <->
  exists k p, e = EvDeregister p (fd_ d) /\ epollers_ d !! k = Some p /\
              is_Some (w_epollers w !! p).
Proof.
  unfold notifications, live_refs. rewrite list_elem_of_fmap. split.
  - intros ([k p] & -> & Hin). apply list_elem_of_filter in Hin as [Hl Hin].
    apply elem_of_map_to_list in Hin. by exists k, p.
  - intros (k & p & -> & Hk & Hl). exists (k, p). split; [done|].
    apply list_elem_of_filter. split; [done|]. by apply elem_of_map_to_list.
Qed.

Lemma NoDup_notifications d w : keyed d w = true -> NoDup (notifications d w).
Proof.
  intros Hkeyed. unfold notifications, live_refs.
  apply NoDup_fmap_2_strong.
  - intros [k1 p1] [k2 p2] H1 H2 [= ->].
    apply list_elem_of_filter in H1 as [[key Hkey] H1].
    apply list_elem_of_filter in H2 as [_ H2].
    apply elem_of_map_to_list in H1, H2. simpl in Hkey.
    by rewrite <- (keyed_spec d w Hkeyed k1 p2 key H1 Hkey),
               <- (keyed_spec d w Hkeyed k2 p2 key H2 Hkey).
  - apply NoDup_filter, NoDup_map_to_list.
Qed.

Lemma close_trace d w :
  0 <= fd_ d ->
  exists r d' w',
    close d w = (r, d', w') /\
    w_trace w' = w_trace w ++ notifications d w ++ [EvClose (fd_ d)] /\
    w_fds w' !! fd_ d = None /\
    ((r = Ok tt /\ d' = with_fd (-1) d) \/
     (r = Throw (unix_error "close") /\ d' = d)).
Proof.
  intros Hfd. destruct (close_spec d w Hfd) as (rv & w' & Hsys & Hclose).
  destruct (sys_close_spec (fd_ d)
              (notify_epollers (fd_ d) (map_to_list (epollers_ d)) w))
    as (rv' & w'' & Hsys' & _ & Htr & Hfds & _).
  rewrite Hsys in Hsys'. injection Hsys' as <- <-.
  rewrite notify_epollers_spec in Htr. simpl in Htr.
  rewrite <- app_assoc in Htr.
  destruct Hclose as [[_ ->] | [_ ->]]; eexists _, _, _;
    (split; [reflexivity|]); auto.
Qed.

Lemma destroy_trace d w :
  0 <= fd_ d ->
  exists tail,
    w_trace (destroy d w).2
      = w_trace w ++ notifications d w ++ EvClose (fd_ d) :: tail /\
    forall e, e ∈ tail -> exists s x, e = EvException s x.
Proof.
  intros Hfd. destruct (close_trace d w Hfd) as (r & d' & w' & Hc & Htr & _ & Hr).
  unfold destroy. rewrite Hc.
  destruct Hr as [[-> _] | [-> _]]; simpl.
  - exists []. split; [by rewrite Htr | intros e He; by apply elem_of_nil in He].
  - eexists [_]. rewrite Htr, <- !app_assoc. split; [reflexivity|].
    intros e He. apply list_elem_of_singleton in He. eauto.
Qed.

Lemma not_notified_after_detach d w k p :
  keyed d w = true -> epollers_ d !! k = Some p ->
  EvDeregister p (fd_ d)
    ∉ notifications (with_epollers (delete k (epollers_ d)) d) w.
Proof.
  intros Hkeyed Hk Hin.
  apply elem_of_notifications in Hin as (k' & p' & [= <-] & Hk' & [key Hl]).
  simpl in Hk'. apply lookup_delete_Some in Hk' as [Hne Hk'].
  apply Hne.
  by rewrite <- (keyed_spec d w Hkeyed k p key Hk Hl),
             <- (keyed_spec d w Hkeyed k' p key Hk' Hl).
Qed.

(** C4: [close] on a valid descriptor tells each live Epoller of the
    back-reference map to deregister the descriptor, once each and nothing
    else, then calls the kernel's close, and only then is the descriptor
    marked invalid; an Epoller taken out by [detach_epoller] gets no
    deregister call from a later [close] or destructor. *)
Theorem close_deregisters_before_release (d : FileDescriptor) (w : World) :
  0 <= fd_ d -> keyed d w = true ->
  exists r d' w' deregs,
    close d w = (r, d', w') /\
    w_trace w' = w_trace w ++ deregs ++ [EvClose (fd_ d)] /\
    NoDup deregs /\
    (forall e, e ∈ deregs <->
       exists k p, e = EvDeregister p (fd_ d) /\ epollers_ d !! k = Some p /\
                   is_Some (w_epollers w !! p)) /\
    w_fds w' !! fd_ d = None /\
    ((r = Ok tt /\ d' = with_fd (-1) d) \/
     (r = Throw (unix_error "close") /\ d' = d)) /\
    (forall k p, epollers_ d !! k = Some p ->
       let dd := (detach_epoller k d w).1.2 in
       let wd := (detach_epoller k d w).2 in
       (EvDeregister p (fd_ d) ∉ new_events wd (close dd wd).2) /\
       (EvDeregister p (fd_ d) ∉ new_events wd (destroy dd wd).2)).
Proof.
  intros Hfd Hkeyed.
  destruct (close_trace d w Hfd) as (r & d' & w' & Hc & Htr & Hfds & Hr).
  exists r, d', w', (notifications d w).
  split; [exact Hc|]. split; [exact Htr|].
  split; [by apply NoDup_notifications|].
  split; [apply elem_of_notifications|].
  split; [exact Hfds|]. split; [exact Hr|].
  intros k p Hk. unfold detach_epoller. rewrite Hk. simpl.
  set (dd := with_epollers (delete k (epollers_ d)) d).
  pose proof (not_notified_after_detach d w k p Hkeyed Hk) as Hnot.
  fold dd in Hnot.
  assert (Hfd' : 0 <= fd_ dd) by exact Hfd.
  split.
  - destruct (close_trace dd w Hfd') as (r2 & d2 & w2 & Hc2 & Htr2 & _).
    rewrite Hc2. simpl. rewrite (new_events_app _ _ _ Htr2).
    intros Hin. apply elem_of_app in Hin as [Hin | Hin]; [by apply Hnot|].
    by apply list_elem_of_singleton in Hin.
  - destruct (destroy_trace dd w Hfd') as (tail & Htr2 & Htail).
    rewrite (new_events_app _ _ _ Htr2).
    intros Hin. apply elem_of_app in Hin as [Hin | Hin]; [by apply Hnot|].
    apply elem_of_cons in Hin as [Hin | Hin]; [done|].
    apply Htail in Hin as (s & x & Hin). discriminate.
Qed.

Lemma close_deregisters_before_release_witness :
  exists r d' w' deregs,
    close attached_many world1 = (r, d', w') /\
    w_trace w' = w_trace world1 ++ deregs ++ [EvClose (fd_ attached_many)] /\
    NoDup deregs /\
    (forall e, e ∈ deregs <->
       exists k p, e = EvDeregister p (fd_ attached_many) /\
                   epollers_ attached_many !! k = Some p /\
                   is_Some (w_epollers world1 !! p)) /\
    w_fds w' !! fd_ attached_many = None /\
    ((r = Ok tt /\ d' = with_fd (-1) attached_many) \/
     (r = Throw (unix_error "close") /\ d' = attached_many)) /\
    (forall k p, epollers_ attached_many !! k = Some p ->
       let dd := (detach_epoller k attached_many world1).1.2 in
       let wd := (detach_epoller k attached_many world1).2 in
       (EvDeregister p (fd_ attached_many)
          ∉ new_events wd (close dd wd).2) /\
       (EvDeregister p (fd_ attached_many)
          ∉ new_events wd (destroy dd wd).2)).
Proof.
  apply (close_deregisters_before_release attached_many world1).
  - vm_compute. discriminate.
  - reflexivity.
Defined.

(** On three back-references: the two live Epollers are told, the dead one
    is skipped, the descriptor is released last. *)
Example close_attached_many :
  close attached_many world1
  = (Ok tt, with_fd (-1) attached_many,
     mk_World ∅ [] (w_epollers world1)
       [EvDeregister 1%nat 3; EvDeregister 2%nat 3; EvClose 3]).
Proof. reflexivity. Qed.

(** ** seek and filesize *)

Lemma to_uint64_small z : 0 <= z < 2 ^ 63 -> to_uint64 z = z.
Proof. intros H. unfold to_uint64. apply Z.mod_small. lia. Qed.

Lemma to_int64_small z : 0 <= z < 2 ^ 63 -> to_int64 z = z.
Proof. intros H. unfold to_int64. rewrite Z.mod_small; lia. Qed.

Lemma seek_File d w data off ce offset wh :
  w_fds w !! fd_ d = Some (mk_ofile (File data off) ce) ->
  let pos := match wh with
             | SEEK_SET => 0
             | SEEK_CUR => Z.of_nat off
             | SEEK_END => Z.of_nat (length data)
             end + offset in
  0 <= pos < 2 ^ 63 ->
  seek offset wh d w
  = (Ok pos, d,
     set_fds (<[fd_ d := mk_ofile (File data (Z.to_nat pos)) ce]> (w_fds w)) w).
Proof.
  intros Hfd pos Hpos.
  unfold seek, bind, fd_num, syscall, sys_lseek, check, CheckSystemCall, ret.
  rewrite Hfd. fold pos.
  destruct (pos <? 0) eqn:E1; [lia|].
  destruct (2 ^ 63 <=? pos) eqn:E2; [lia|]. simpl.
  rewrite E1. by rewrite to_uint64_small.
Qed.

Lemma set_fds_id w t : t = w_fds w -> set_fds t w = w.
Proof. intros ->. by destruct w. Qed.

(** C6: on a seekable descriptor [filesize] returns the size of the file and
    changes neither the object nor the world, the file offset included:
    [curr_offset] gives the same value before and after. *)
Theorem filesize_keeps_offset (d : FileDescriptor) (w : World)
  (data : bytes) (off : nat) (ce : bool) :
  w_fds w !! fd_ d = Some (mk_ofile (File data off) ce) ->
  Z.of_nat off < 2 ^ 63 ->
  Z.of_nat (length data) < 2 ^ 63 ->
  filesize d w = (Ok (Z.of_nat (length data)), d, w) /\
  (before <- curr_offset ;; size <- filesize ;; after <- curr_offset ;;
   ret (before, size, after)) d w
  = (Ok (Z.of_nat off, Z.of_nat (length data), Z.of_nat off), d, w).
Proof.
  intros Hfd Hoff Hlen.
  assert (Hcur : curr_offset d w = (Ok (Z.of_nat off), d, w)).
  { unfold curr_offset. rewrite (seek_File d w data off ce 0 SEEK_CUR Hfd)
      by (simpl; lia).
    cbn zeta. rewrite Z.add_0_r, Nat2Z.id. f_equal.
    apply set_fds_id. by apply insert_id. }
  assert (Hsize : filesize d w = (Ok (Z.of_nat (length data)), d, w)).
  { unfold filesize. unfold bind at 1. rewrite Hcur.
    unfold bind at 1.
    rewrite (seek_File d w data off ce 0 SEEK_END Hfd) by (simpl; lia).
    cbn zeta. rewrite Z.add_0_r, Nat2Z.id.
    unfold bind.
    set (w1 := set_fds _ w).
    assert (Hfd1 : w_fds w1 !! fd_ d
                   = Some (mk_ofile (File data (length data)) ce))
      by apply lookup_insert_eq.
    rewrite (seek_File d w1 data (length data) ce _ SEEK_SET Hfd1)
      by (rewrite to_int64_small; lia).
    cbn zeta. rewrite to_int64_small by lia.
    rewrite Z.add_0_l, Nat2Z.id. subst w1. unfold set_fds at 1. simpl.
    rewrite insert_insert_eq. unfold ret. f_equal.
    apply set_fds_id. by apply insert_id. }
  split; [exact Hsize|].
  unfold bind. rewrite Hcur, Hsize, Hcur. reflexivity.
Qed.

Lemma filesize_keeps_offset_witness :
  filesize (fresh 4) world0 = (Ok 3, fresh 4, world0) /\
  (before <- curr_offset ;; size <- filesize ;; after <- curr_offset ;;
   ret (before, size, after)) (fresh 4) world0
  = (Ok (1, 3, 1), fresh 4, world0).
Proof.
  apply (filesize_keeps_offset (fresh 4) world0 [byte_a; byte_b; byte_c]
           1%nat true); [reflexivity | reflexivity | reflexivity].
Defined.

(** ** read *)

Lemma grant_le c want n : grant c want = Some n -> (n <= want)%nat.
Proof. destruct c as [[|m]|]; simpl; intros [= <-]; lia. Qed.

Lemma grant_progress o want :
  forallb progress o = true ->
  exists n, grant (head o) want = Some n /\ (n <= want)%nat /\
            ((0 < want)%nat -> (0 < n)%nat).
Proof.
  destruct o as [|[|[|m]] o]; simpl; try discriminate; intros _.
  - exists want. auto.
  - exists (Nat.min (S m) want). split; [done|]. lia.
Qed.

Lemma progress_tail o : forallb progress o = true -> forallb progress (tail o) = true.
Proof. destruct o as [|c o]; simpl; [done|]. by intros [_ ?]%andb_true_iff. Qed.

Lemma obj_avail_consume o n : obj_avail (obj_consume o n) = drop n (obj_avail o).
Proof. destruct o; simpl; [done|]. by rewrite drop_drop. Qed.

Lemma take_plus {A} (l : list A) j m :
  take (j + m) l = take j l ++ take m (drop j l).
Proof.
  revert l. induction j as [|j IH]; intros [|x l]; simpl; try done.
  - by rewrite take_nil.
  - by rewrite IH.
Qed.

Section Reading.

Variable BUFFER_SIZE : positive.

Abbreviation B := (Pos.to_nat BUFFER_SIZE).

Lemma B_pos : (0 < B)%nat.
Proof. apply Pos2Nat.is_pos. Qed.

Lemma read_granted limit d w f n :
  w_fds w !! fd_ d = Some f ->
  grant (head (w_oracle w))
        (Nat.min (Nat.min B limit) (length (obj_avail (of_obj f)))) = Some n ->
  read BUFFER_SIZE limit d w
  = (Ok (take n (obj_avail (of_obj f))), after_read d n,
     consumed (fd_ d) f n w).
Proof.
  intros Hfd Hg.
  unfold read, bind, fd_num, syscall, sys_read, pop_choice.
  assert (E : (Z.of_nat n <? 0) = false) by (apply Z.ltb_ge; lia).
  rewrite Hfd, Hg. cbn [fst snd].
  unfold check, CheckSystemCall. rewrite E.
  unfold after_read, consumed, set_eof, register_read, ret, with_eof.
  rewrite Nat2Z.id, take_take, Nat.min_id.
  destruct n as [|n]; simpl; [by rewrite orb_true_r|].
  by rewrite orb_false_r.
Qed.

Lemma read_failed limit d w f :
  w_fds w !! fd_ d = Some f ->
  head (w_oracle w) = Some Fault ->
  read BUFFER_SIZE limit d w
  = (Throw (unix_error "read"), d, set_oracle (tail (w_oracle w)) w).
Proof.
  intros Hfd Hg.
  unfold read, bind, fd_num, syscall, sys_read, pop_choice.
  rewrite Hfd, Hg. reflexivity.
Qed.

Lemma read_closed limit d w :
  w_fds w !! fd_ d = None ->
  read BUFFER_SIZE limit d w = (Throw (unix_error "read"), d, w).
Proof.
  intros Hfd.
  unfold read, bind, fd_num, syscall, sys_read. by rewrite Hfd.
Qed.

(** C10: [read 0] on an open descriptor, when the kernel does not fail the
    call, makes one kernel read, which returns nothing; the empty string is
    returned and the end-of-file flag is set, whatever the descriptor still
    holds: its data stay where they were. *)
Theorem read_zero_sets_eof (d : FileDescriptor) (w : World) (f : ofile) :
  w_fds w !! fd_ d = Some f ->
  head (w_oracle w) <> Some Fault ->
  exists d' w',
    read BUFFER_SIZE 0 d w = (Ok [], d', w') /\
    eof_ d' = true /\
    read_count_ d' = (read_count_ d + 1)%N /\
    w_oracle w' = tail (w_oracle w) /\
    w_fds w' !! fd_ d' = Some f.
Proof.
  intros Hfd Hok.
  assert (Hg : grant (head (w_oracle w))
                 (Nat.min (Nat.min B 0) (length (obj_avail (of_obj f))))
               = Some 0%nat).
  { rewrite Nat.min_0_r. simpl.
    destruct (head (w_oracle w)) as [[|m]|]; simpl; [done| |done].
    by rewrite Nat.min_0_r. }
  rewrite (read_granted 0 d w f 0 Hfd Hg).
  eexists _, _. split; [reflexivity|]. simpl.
  split; [apply orb_true_r|]. split; [reflexivity|]. split; [reflexivity|].
  rewrite lookup_insert_eq. f_equal.
  destruct f as [[q|data off] ce]; simpl; [done|].
  by rewrite Nat.add_0_r.
Qed.

Lemma read_progress limit d w f :
  w_fds w !! fd_ d = Some f ->
  forallb progress (w_oracle w) = true ->
  exists n,
    read BUFFER_SIZE limit d w
    = (Ok (take n (obj_avail (of_obj f))), after_read d n,
       consumed (fd_ d) f n w) /\
    (n <= limit)%nat /\ (n <= length (obj_avail (of_obj f)))%nat /\
    ((0 < limit)%nat -> obj_avail (of_obj f) <> [] -> (0 < n)%nat).
Proof.
  intros Hfd Hp.
  destruct (grant_progress (w_oracle w)
              (Nat.min (Nat.min B limit) (length (obj_avail (of_obj f)))) Hp)
    as (n & Hg & Hle & Hpos).
  exists n. split; [by apply read_granted|].
  split; [lia|]. split; [lia|].
  intros Hlim Hne. apply Hpos. pose proof B_pos.
  destruct (obj_avail (of_obj f)); [done|]. simpl. lia.
Qed.

Lemma read_outcome limit d w :
  exists r d' w',
    read BUFFER_SIZE limit d w = (r, d', w') /\
    match r with
    | Ok chunk => (length chunk <= limit)%nat /\ (chunk = [] -> eof_ d' = true)
    | Throw _ => True
    | OutOfFuel => False
    end.
Proof.
  destruct (w_fds w !! fd_ d) as [f|] eqn:Hfd.
  2: { rewrite read_closed by done. by eexists _, _, _. }
  destruct (grant (head (w_oracle w))
              (Nat.min (Nat.min B limit) (length (obj_avail (of_obj f)))))
    as [n|] eqn:Hg.
  - rewrite (read_granted limit d w f n Hfd Hg).
    eexists _, _, _. split; [reflexivity|]. simpl.
    apply grant_le in Hg. rewrite length_take. split; [lia|].
    intros Hnil. apply (f_equal length) in Hnil.
    rewrite length_take in Hnil. simpl in Hnil.
    assert (n = 0%nat) as -> by lia. apply orb_true_r.
  - destruct (head (w_oracle w)) as [[|m]|] eqn:Hh; try discriminate.
    rewrite (read_failed limit d w f Hfd Hh). by eexists _, _, _.
Qed.

Lemma read_exactly_loop_outcome fuel n fs :
  forall acc d w,
    (length acc <= n)%nat -> (n - length acc <= fuel)%nat ->
    exists r d' w',
      read_exactly_loop BUFFER_SIZE fuel n fs acc d w = (r, d', w') /\
      match r with
      | Ok s => (fs = false -> length s = n) /\ (length s <= n)%nat
      | Throw _ => True
      | OutOfFuel => False
      end.
Proof.
  induction fuel as [|fuel IH]; intros acc d w Hacc Hfuel.
  - simpl. destruct (length acc <? n)%nat eqn:E; [apply Nat.ltb_lt in E; lia|].
    assert (length acc = n) as Heq by (apply Nat.ltb_ge in E; lia).
    apply Nat.eqb_eq in Heq as Heq'. rewrite Heq'.
    eexists _, _, _. split; [reflexivity|]. simpl. split; [done|lia].
  - simpl. destruct (length acc <? n)%nat eqn:E.
    + apply Nat.ltb_lt in E.
      destruct (read_outcome (n - length acc) d w)
        as (r & d1 & w1 & Hr & Hout).
      unfold bind at 1. rewrite Hr.
      destruct r as [chunk|e|]; [|by eexists _, _, _|done].
      destruct Hout as [Hlen Heof].
      unfold bind, eof. destruct (eof_ d1) eqn:Heof1.
      * destruct fs; eexists _, _, _; (split; [reflexivity|]); simpl; [|done].
        rewrite length_app. split; [done|lia].
      * apply IH.
        -- rewrite length_app. lia.
        -- rewrite length_app.
           destruct chunk; [specialize (Heof eq_refl); congruence|simpl; lia].
    + assert (length acc = n) as Heq by (apply Nat.ltb_ge in E; lia).
      apply Nat.eqb_eq in Heq as Heq'. rewrite Heq'.
      eexists _, _, _. split; [reflexivity|]. simpl. split; [done|lia].
Qed.

Lemma read_exactly_loop_short fuel n fs :
  forall acc d w f,
    w_fds w !! fd_ d = Some f ->
    forallb progress (w_oracle w) = true ->
    eof_ d = false ->
    (length acc + length (obj_avail (of_obj f)) < n)%nat ->
    (length (obj_avail (of_obj f)) < fuel)%nat ->
    exists d' w',
      read_exactly_loop BUFFER_SIZE fuel n fs acc d w
      = (if fs then Ok (acc ++ obj_avail (of_obj f))
         else Throw (runtime_error eof_message), d', w') /\
      eof_ d' = true.
Proof.
  induction fuel as [|fuel IH]; intros acc d w f Hfd Hp Heof Hshort Hfuel;
    [lia|].
  simpl.
  assert ((length acc <? n)%nat = true) as -> by (apply Nat.ltb_lt; lia).
  destruct (read_progress (n - length acc) d w f Hfd Hp)
    as (j & Hr & Hjl & Hja & Hpos).
  unfold bind at 1. rewrite Hr. unfold bind, eof.
  change (eof_ (after_read d j)) with (eof_ d || (j =? 0)%nat).
  rewrite Heof.
  destruct j as [|j]; cbn [orb Nat.eqb].
  - assert (obj_avail (of_obj f) = []) as Hnil.
    { destruct (obj_avail (of_obj f)) eqn:Ha; [done|].
      assert (0 < 0)%nat; [|lia]. apply Hpos; [lia|done]. }
    rewrite Hnil.
    destruct fs; eexists _, _; (split; [reflexivity|apply orb_true_r]).
  - set (j1 := S j) in *.
    destruct (IH (acc ++ take j1 (obj_avail (of_obj f))) (after_read d j1)
                (consumed (fd_ d) f j1 w)
                (mk_ofile (obj_consume (of_obj f) j1) (of_cloexec f)))
      as (d' & w' & Hl & He).
    + apply lookup_insert_eq.
    + by apply progress_tail.
    + simpl. by rewrite Heof.
    + simpl of_obj. rewrite obj_avail_consume, length_app, length_take,
        length_drop. lia.
    + simpl of_obj. rewrite obj_avail_consume, length_drop. subst j1. lia.
    + exists d', w'. split; [|exact He]. rewrite Hl. simpl of_obj.
      by rewrite obj_avail_consume, <- app_assoc, take_drop.
Qed.

Lemma read_exactly_loop_enough fuel n fs :
  forall acc d w f,
    w_fds w !! fd_ d = Some f ->
    forallb progress (w_oracle w) = true ->
    eof_ d = false ->
    (length acc <= n)%nat ->
    (n <= length acc + length (obj_avail (of_obj f)))%nat ->
    (n - length acc <= fuel)%nat ->
    exists d' w',
      read_exactly_loop BUFFER_SIZE fuel n fs acc d w
      = (Ok (acc ++ take (n - length acc) (obj_avail (of_obj f))), d', w').
Proof.
  induction fuel as [|fuel IH]; intros acc d w f Hfd Hp Heof Hacc Hn Hfuel.
  - simpl.
    assert ((length acc <? n)%nat = false) as -> by (apply Nat.ltb_ge; lia).
    assert ((length acc =? n)%nat = true) as -> by (apply Nat.eqb_eq; lia).
    replace (n - length acc)%nat with 0%nat by lia.
    rewrite take_0, app_nil_r. by eexists _, _.
  - simpl. destruct (length acc <? n)%nat eqn:E.
    + apply Nat.ltb_lt in E.
      destruct (read_progress (n - length acc) d w f Hfd Hp)
        as (j & Hr & Hjl & Hja & Hpos).
      unfold bind at 1. rewrite Hr. unfold bind, eof.
      change (eof_ (after_read d j)) with (eof_ d || (j =? 0)%nat).
      rewrite Heof.
      assert (0 < j)%nat as Hj.
      { apply Hpos; [lia|]. destruct (obj_avail (of_obj f)); [simpl in *; lia|done]. }
      destruct j as [|j]; [lia|]. cbn [orb Nat.eqb].
      set (j1 := S j) in *.
      destruct (IH (acc ++ take j1 (obj_avail (of_obj f))) (after_read d j1)
                  (consumed (fd_ d) f j1 w)
                  (mk_ofile (obj_consume (of_obj f) j1) (of_cloexec f)))
        as (d' & w' & Hl).
      * apply lookup_insert_eq.
      * by apply progress_tail.
      * simpl. by rewrite Heof.
      * rewrite length_app, length_take. lia.
      * simpl of_obj. rewrite obj_avail_consume, length_app, length_take,
          length_drop. lia.
      * rewrite length_app, length_take. lia.
      * exists d', w'. rewrite Hl. simpl of_obj.
        rewrite obj_avail_consume, length_app, length_take, <- app_assoc.
        do 2 f_equal.
        replace (n - length acc)%nat
          with (j1 + (n - (length acc + j1 `min` length (obj_avail (of_obj f)))))%nat
          by lia.
        by rewrite take_plus.
    + assert ((length acc =? n)%nat = true) as ->
        by (apply Nat.eqb_eq; apply Nat.ltb_ge in E; lia).
      replace (n - length acc)%nat with 0%nat by (apply Nat.ltb_ge in E; lia).
      rewrite take_0, app_nil_r. by eexists _, _.
Qed.

(** C2, amended: when the source holds fewer bytes than asked for and the
    end-of-file flag is not set when the call starts, [read_exactly]
    without [fail_silently] throws the end-of-file error and with it
    returns exactly the bytes the source held.  In every state and for
    every length, a [read_exactly] without [fail_silently] ends, and when it
    returns, the string has the requested length; it does return when the
    flag is not set and the source holds enough. *)
Theorem read_exactly_short_source (n : nat) (d : FileDescriptor) (w : World)
  (f : ofile) :
  (w_fds w !! fd_ d = Some f ->
   forallb progress (w_oracle w) = true ->
   eof_ d = false ->
   (length (obj_avail (of_obj f)) < n)%nat ->
   (exists d' w',
      read_exactly BUFFER_SIZE n false d w
      = (Throw (runtime_error eof_message), d', w')) /\
   (exists d' w',
      read_exactly BUFFER_SIZE n true d w
      = (Ok (obj_avail (of_obj f)), d', w'))) /\
  (exists r d' w',
     read_exactly BUFFER_SIZE n false d w = (r, d', w') /\
     match r with
     | Ok s => length s = n
     | Throw _ => True
     | OutOfFuel => False
     end) /\
  (w_fds w !! fd_ d = Some f ->
   forallb progress (w_oracle w) = true ->
   eof_ d = false ->
   (n <= length (obj_avail (of_obj f)))%nat ->
   exists d' w',
     read_exactly BUFFER_SIZE n false d w
     = (Ok (take n (obj_avail (of_obj f))), d', w')).
Proof.
  unfold read_exactly. split; [|split].
  - intros Hfd Hp Heof Hshort. split.
    + destruct (read_exactly_loop_short n n false [] d w f Hfd Hp Heof)
        as (d' & w' & H & _); [simpl; lia | lia |]. by exists d', w'.
    + destruct (read_exactly_loop_short n n true [] d w f Hfd Hp Heof)
        as (d' & w' & H & _); [simpl; lia | lia |]. by exists d', w'.
  - destruct (read_exactly_loop_outcome n n false [] d w)
      as (r & d' & w' & H & Hr); [simpl; lia | simpl; lia |].
    exists r, d', w'. split; [exact H|].
    destruct r as [s|e|]; [|done|done]. by apply Hr.
  - intros Hfd Hp Heof Hn.
    destruct (read_exactly_loop_enough n n false [] d w f Hfd Hp Heof)
      as (d' & w' & H); [simpl; lia | simpl; lia | simpl; lia |].
    exists d', w'. rewrite H. simpl. by rewrite Nat.sub_0_r.
Qed.

Lemma read_until_eof_all fuel limit :
  forall acc d w f,
    (0 < limit)%nat ->
    w_fds w !! fd_ d = Some f ->
    forallb progress (w_oracle w) = true ->
    eof_ d = false ->
    (length (obj_avail (of_obj f)) < fuel)%nat ->
    exists d' w',
      read_until_eof BUFFER_SIZE fuel limit acc d w
      = (Ok (acc ++ obj_avail (of_obj f)), d', w') /\
      eof_ d' = true.
Proof.
  induction fuel as [|fuel IH]; intros acc d w f Hlim Hfd Hp Heof Hfuel;
    [lia|].
  simpl.
  destruct (read_progress limit d w f Hfd Hp) as (j & Hr & Hjl & Hja & Hpos).
  unfold bind at 1. rewrite Hr. unfold bind, eof.
  change (eof_ (after_read d j)) with (eof_ d || (j =? 0)%nat).
  rewrite Heof.
  destruct j as [|j]; cbn [orb Nat.eqb].
  - assert (obj_avail (of_obj f) = []) as Hnil.
    { destruct (obj_avail (of_obj f)) eqn:Ha; [done|].
      assert (0 < 0)%nat; [|lia]. apply Hpos; [lia|done]. }
    rewrite Hnil. eexists _, _. split; [reflexivity|apply orb_true_r].
  - set (j1 := S j) in *.
    destruct (IH (acc ++ take j1 (obj_avail (of_obj f))) (after_read d j1)
                (consumed (fd_ d) f j1 w)
                (mk_ofile (obj_consume (of_obj f) j1) (of_cloexec f)))
      as (d' & w' & Hl & He).
    + exact Hlim.
    + apply lookup_insert_eq.
    + by apply progress_tail.
    + simpl. by rewrite Heof.
    + simpl of_obj. rewrite obj_avail_consume, length_drop. subst j1. lia.
    + exists d', w'. split; [|exact He]. rewrite Hl. simpl of_obj.
      by rewrite obj_avail_consume, <- app_assoc, take_drop.
Qed.

End Reading.

Lemma read_zero_sets_eof_witness :
  exists d' w',
    read 4 0 (fresh 3) world_abc = (Ok [], d', w') /\
    eof_ d' = true /\
    read_count_ d' = (read_count_ (fresh 3) + 1)%N /\
    w_oracle w' = tail (w_oracle world_abc) /\
    w_fds w' !! fd_ d'
    = Some (mk_ofile (Stream [byte_a; byte_b; byte_c]) true).
Proof.
  apply (read_zero_sets_eof 4 (fresh 3) world_abc
           (mk_ofile (Stream [byte_a; byte_b; byte_c]) true)).
  - reflexivity.
  - vm_compute. discriminate.
Defined.

(** C2, as stated, fails: the end-of-file flag stays set until [reset], and
    with the flag set [read_exactly] stops after its first read.  The source
    holds three bytes, fewer than the five asked for, and the call returns
    the two bytes of its first read, not the three. *)
Lemma read_exactly_with_eof_set :
  let d := with_eof true (fresh 3) in
  w_fds world_abc !! fd_ d
  = Some (mk_ofile (Stream [byte_a; byte_b; byte_c]) true) /\
  (read_exactly 2 5 true d world_abc).1.1 = Ok [byte_a; byte_b] /\
  ~ (exists d' w',
       read_exactly 2 5 true d world_abc
       = (Ok [byte_a; byte_b; byte_c], d', w')).
Proof.
  split; [reflexivity|]. split; [reflexivity|].
  intros (d' & w' & H). discriminate H.
Qed.

Lemma read_exactly_short_source_witness :
  (exists d' w',
     read_exactly 2 5 false (fresh 3) world_abc
     = (Throw (runtime_error eof_message), d', w')) /\
  (exists d' w',
     read_exactly 2 5 true (fresh 3) world_abc
     = (Ok [byte_a; byte_b; byte_c], d', w')).
Proof.
  destruct (read_exactly_short_source 2 5 (fresh 3) world_abc
              (mk_ofile (Stream [byte_a; byte_b; byte_c]) true))
    as (H & _).
  apply H.
  - reflexivity.
  - reflexivity.
  - reflexivity.
  - vm_compute. lia.
Defined.

(** ** write, and the round trip *)



(** [write] never runs out of fuel: each turn of its loop throws or moves
    the iterator forward.  When it returns, the position is inside the
    buffer, and at its end under [write_all]. *)
Lemma write_range_outcome buffer it d w :
  exists r d' w',
    write_range buffer it (length buffer) d w = (r, d', w') /\
    match r with
    | Ok it' => (it < it' <= length buffer)%nat
    | Throw _ => True
    | OutOfFuel => False
    end.
Proof.
  unfold write_range.
  destruct (length buffer <=? it)%nat eqn:E; [by eexists _, _, _|].
  apply Nat.leb_gt in E.
  unfold bind, fd_num, syscall, sys_write, pop_choice.
  destruct (w_fds w !! fd_ d) as [f|]; [|by eexists _, _, _].
  destruct (grant _ _) as [n|] eqn:Hg; [|by eexists _, _, _].
  apply grant_le in Hg. rewrite length_take, length_drop in Hg.
  cbn [fst snd]. unfold check, CheckSystemCall.
  assert ((Z.of_nat n <? 0) = false) as -> by (apply Z.ltb_ge; lia).
  destruct (Z.of_nat n =? 0) eqn:E0; [by eexists _, _, _|].
  apply Z.eqb_neq in E0.
  eexists _, _, _. split; [reflexivity|]. simpl. lia.
Qed.

Lemma write_loop_outcome fuel buffer write_all :
  forall it d w,
    (length buffer - it < fuel)%nat ->
    exists r d' w',
      write_loop fuel buffer write_all it d w = (r, d', w') /\
      match r with
      | Ok it' => (it' <= length buffer)%nat /\
                  (write_all = true -> it' = length buffer)
      | Throw _ => True
      | OutOfFuel => False
      end.
Proof.
  induction fuel as [|fuel IH]; intros it d w Hfuel; [lia|].
  simpl.
  destruct (write_range_outcome buffer it d w) as (r & d1 & w1 & Hr & Hout).
  unfold bind at 1. rewrite Hr.
  destruct r as [it'|e|]; [|by eexists _, _, _|done].
  destruct (write_all && negb (it' =? length buffer)%nat) eqn:E.
  - apply IH. lia.
  - eexists _, _, _. split; [reflexivity|]. simpl. split; [lia|].
    intros ->. simpl in E. apply negb_false_iff in E.
    by apply Nat.eqb_eq in E.
Qed.

Lemma write_outcome buffer write_all d w :
  exists r d' w',
    write buffer write_all d w = (r, d', w') /\
    match r with
    | Ok it' => (it' <= length buffer)%nat /\
                (write_all = true -> it' = length buffer)
    | Throw _ => True
    | OutOfFuel => False
    end.
Proof. unfold write. apply write_loop_outcome. lia. Qed.




(** With a slow kernel the loop of [write] takes two turns, of one and of
    two bytes. *)
Example write_slow :
  write [byte_a; byte_b; byte_c] true (fresh 3) world_slow
  = (Ok 3%nat, mk_FileDescriptor 3 false 0 2 ∅,
     mk_World (<[3 := mk_ofile (Stream [byte_a; byte_b; byte_c]) true]> ∅)
              [Upto 2; Upto 1; Upto 3] ∅ []).
Proof. reflexivity. Qed.

(** * Further properties of the file descriptor *)

(** ** write on a stream or at the end of a file *)

Lemma grant_progress_or_not o want :
  (exists n, grant (head o) want = Some n /\ (n <= want)%nat /\
             (forallb progress o = true -> (0 < want)%nat -> (0 < n)%nat)) \/
  (grant (head o) want = None /\ forallb progress o = false).
Proof.
  destruct o as [|[|[|m]] o]; simpl.
  - left. exists want. auto.
  - by right.
  - left. exists 0%nat. split; [done|]. split; [lia|]. discriminate.
  - left. exists (Nat.min (S m) want). split; [done|]. split; lia.
Qed.

Lemma obj_write_appending o b :
  appending o = true ->
  appending (obj_write o b) = true /\
  obj_data (obj_write o b) = obj_data o ++ b.
Proof.
  destruct o as [q|data off]; simpl; [done|].
  intros ->%Nat.eqb_eq. unfold overwrite.
  rewrite Nat.sub_diag, app_nil_r, take_ge by lia.
  rewrite drop_ge by lia. rewrite app_nil_r.
  split; [|done]. apply Nat.eqb_eq. by rewrite length_app.
Qed.

Lemma seekable_obj_write o b : seekable (obj_write o b) = seekable o.
Proof. by destruct o. Qed.

Lemma write_range_appending buffer q0 it d w f :
  w_fds w !! fd_ d = Some f ->
  appending (of_obj f) = true ->
  obj_data (of_obj f) = q0 ++ take it buffer ->
  (it <= length buffer)%nat ->
  exists r d' w' f' k,
    write_range buffer it (length buffer) d w = (r, d', w') /\
    w_fds w' !! fd_ d' = Some f' /\
    appending (of_obj f') = true /\
    seekable (of_obj f') = seekable (of_obj f) /\
    obj_data (of_obj f') = q0 ++ take k buffer /\
    fd_ d' = fd_ d /\ eof_ d' = eof_ d /\
    (it <= k <= length buffer)%nat /\
    match r with
    | Ok it' => it' = k /\ (it < it')%nat
    | Throw _ => k = it
    | OutOfFuel => False
    end /\
    (forallb progress (w_oracle w) = true ->
     forallb progress (w_oracle w') = true /\
     ((it < length buffer)%nat -> exists it', r = Ok it')).
Proof.
  intros Hfd Happ Hdata Hit. unfold write_range.
  destruct (length buffer <=? it)%nat eqn:E.
  { apply Nat.leb_le in E. exists (Throw (runtime_error "nothing to write")),
      d, w, f, it. split_and!; try done; try lia.
    intros Hp. split; [done|lia]. }
  apply Nat.leb_gt in E.
  unfold bind, fd_num, syscall, sys_write, pop_choice. rewrite Hfd.
  set (buf := take (length buffer - it) (drop it buffer)).
  assert (Hbuf : length buf = (length buffer - it)%nat).
  { subst buf. rewrite length_take, length_drop. lia. }
  destruct (grant_progress_or_not (w_oracle w) (length buf))
    as [(n & Hg & Hn & Hpos) | (Hg & Hnp)].
  2: { rewrite Hg. cbn [fst snd]. exists (Throw (unix_error "write")), d,
         (set_oracle (tail (w_oracle w)) w), f, it.
       split_and!; try done; try lia. intros Hp. congruence. }
  rewrite Hg, Hbuf in *.
  cbn [fst snd]. unfold check, CheckSystemCall.
  assert ((Z.of_nat n <? 0) = false) as -> by (apply Z.ltb_ge; lia).
  assert (Htake : take n buf = take n (drop it buffer)).
  { subst buf. rewrite take_take. f_equal. lia. }
  destruct (obj_write_appending (of_obj f) (take n buf) Happ) as [Happ' Hdata'].
  assert (Hdata'' : obj_data (obj_write (of_obj f) (take n buf))
                    = q0 ++ take (it + n) buffer).
  { rewrite Hdata', Hdata, Htake, <- app_assoc. f_equal.
    symmetry. apply take_plus. }
  destruct (Z.of_nat n =? 0) eqn:E0.
  - apply Z.eqb_eq in E0. assert (n = 0)%nat as -> by lia.
    eexists _, _, _, _, it. split; [reflexivity|].
    unfold throw. cbn [fst snd]. simpl w_fds.
    rewrite lookup_insert_eq. simpl of_obj.
    rewrite Nat.add_0_r in Hdata''.
    split_and!; try done; try lia; [apply seekable_obj_write|].
    intros Hp. split; [by apply progress_tail|].
    intros Hlt. specialize (Hpos Hp). lia.
  - apply Z.eqb_neq in E0.
    eexists _, _, _, _, (it + n)%nat. split; [reflexivity|].
    unfold register_write, ret. cbn [fst snd fd_ eof_]. simpl w_fds.
    rewrite lookup_insert_eq. simpl of_obj. rewrite Nat2Z.id.
    split_and!; try done; try lia; [apply seekable_obj_write|].
    intros Hp. split; [by apply progress_tail|]. eauto.
Qed.

Lemma write_loop_appending fuel buffer write_all q0 :
  forall it d w f,
    w_fds w !! fd_ d = Some f ->
    appending (of_obj f) = true ->
    obj_data (of_obj f) = q0 ++ take it buffer ->
    (it <= length buffer)%nat ->
    (length buffer - it < fuel)%nat ->
    exists r d' w' f' k,
      write_loop fuel buffer write_all it d w = (r, d', w') /\
      w_fds w' !! fd_ d' = Some f' /\
      appending (of_obj f') = true /\
      seekable (of_obj f') = seekable (of_obj f) /\
      obj_data (of_obj f') = q0 ++ take k buffer /\
      fd_ d' = fd_ d /\ eof_ d' = eof_ d /\
      (it <= k <= length buffer)%nat /\
      match r with
      | Ok it' => it' = k /\ (it < it')%nat /\
                  (write_all = true -> it' = length buffer)
      | Throw _ => True
      | OutOfFuel => False
      end /\
      (forallb progress (w_oracle w) = true ->
       forallb progress (w_oracle w') = true /\
       ((it < length buffer)%nat -> exists it', r = Ok it')).
Proof.
  induction fuel as [|fuel IH]; intros it d w f Hfd Happ Hdata Hit Hfuel;
    [lia|].
  simpl.
  destruct (write_range_appending buffer q0 it d w f Hfd Happ Hdata Hit)
    as (r & d1 & w1 & f1 & k & Hr & Hfd1 & Happ1 & Hseek1 & Hdata1 & Hfdn
        & Heof & Hk & Hres & Hprog).
  unfold bind at 1. rewrite Hr.
  destruct r as [it'|e|]; [| |done].
  2: { exists (Throw e), d1, w1, f1, k. split_and!; try done; lia. }
  destruct Hres as [-> Hlt].
  destruct (write_all && negb (k =? length buffer)%nat) eqn:E.
  - apply andb_true_iff in E as [-> E]. apply negb_true_iff, Nat.eqb_neq in E.
    destruct (IH k d1 w1 f1 Hfd1 Happ1 Hdata1)
      as (r & d2 & w2 & f2 & k2 & Hr2 & Hfd2 & Happ2 & Hseek2 & Hdata2 & Hfdn2
          & Heof2 & Hk2 & Hres2 & Hprog2); [lia|lia|].
    exists r, d2, w2, f2, k2. split; [exact Hr2|].
    split_and!; try done; try congruence; try lia.
    + destruct r as [it2|e|]; [|done|done].
      destruct Hres2 as (-> & Hlt2 & Hall). split_and!; [done|lia|done].
    + intros Hp. destruct (Hprog Hp) as [Hp1 _].
      destruct (Hprog2 Hp1) as [Hp2 Hok]. split; [done|].
      intros _. apply Hok. lia.
  - exists (Ok k), d1, w1, f1, k. split; [reflexivity|].
    split_and!; try done; try lia.
    all: try (intros Hp; split; [by apply Hprog|]; by eauto).
    intros ->. simpl in E. apply negb_false_iff in E.
    by apply Nat.eqb_eq in E.
Qed.

(** X1: on a descriptor open on a stream, or on a file positioned at its
    end, [write] always ends, by returning or throwing, and whatever the
    kernel does the object then holds its former bytes followed by a prefix
    of the buffer.  When [write] returns, the prefix is as long as the
    position returned, which is past the start, and is the end of the
    buffer under [write_all]. *)
Theorem write_extends_by_prefix (buffer : bytes) (write_all : bool)
  (d : FileDescriptor) (w : World) (f : ofile) :
  w_fds w !! fd_ d = Some f ->
  appending (of_obj f) = true ->
  exists r d' w' f' k,
    write buffer write_all d w = (r, d', w') /\
    w_fds w' !! fd_ d' = Some f' /\
    appending (of_obj f') = true /\
    obj_data (of_obj f') = obj_data (of_obj f) ++ take k buffer /\
    (k <= length buffer)%nat /\
    match r with
    | Ok it => it = k /\ (0 < it)%nat /\
               (write_all = true -> it = length buffer)
    | Throw _ => True
    | OutOfFuel => False
    end.
Proof.
  intros Hfd Happ. unfold write.
  destruct (write_loop_appending (S (length buffer)) buffer write_all
              (obj_data (of_obj f)) 0%nat d w f Hfd Happ)
    as (r & d' & w' & f' & k & Hr & Hfd' & Happ' & _ & Hdata' & _ & _ & Hk
        & Hres & _); [by rewrite take_0, app_nil_r | lia | lia |].
  exists r, d', w', f', k. split; [exact Hr|].
  split_and!; try done; lia.
Qed.

Lemma write_extends_by_prefix_witness :
  exists r d' w' f' k,
    write [byte_a; byte_b; byte_c] false (fresh 4) world_file = (r, d', w') /\
    w_fds w' !! fd_ d' = Some f' /\
    appending (of_obj f') = true /\
    obj_data (of_obj f')
    = [byte_a; byte_b; byte_c] ++ take k [byte_a; byte_b; byte_c] /\
    (k <= 3)%nat /\
    match r with
    | Ok it => it = k /\ (0 < it)%nat /\ (false = true -> it = 3%nat)
    | Throw _ => True
    | OutOfFuel => False
    end.
Proof.
  apply (write_extends_by_prefix [byte_a; byte_b; byte_c] false (fresh 4)
           world_file (mk_ofile (File [byte_a; byte_b; byte_c] 3) true)).
  - reflexivity.
  - reflexivity.
Defined.

(** ** read, read_exactly and reset *)

(** X2: [read] returns at most [min (BUFFER_SIZE, limit)] bytes and counts
    one read; the end-of-file flag is set exactly when nothing was returned
    and is never cleared.  A [read] that throws, throws the system-call
    error and leaves the object as it was. *)
Theorem read_returns_at_most_limit (BUFFER_SIZE : positive) (limit : nat)
  (d : FileDescriptor) (w : World) :
  exists r d' w',
    read BUFFER_SIZE limit d w = (r, d', w') /\
    match r with
    | Ok chunk =>
        (length chunk <= Nat.min (Pos.to_nat BUFFER_SIZE) limit)%nat /\
        eof_ d' = eof_ d || (length chunk =? 0)%nat /\
        read_count_ d' = (read_count_ d + 1)%N /\
        (fd_ d', write_count_ d', epollers_ d')
        = (fd_ d, write_count_ d, epollers_ d)
    | Throw e => e = unix_error "read" /\ d' = d
    | OutOfFuel => False
    end.
Proof.
  destruct (w_fds w !! fd_ d) as [f|] eqn:Hfd.
  2: { rewrite read_closed by done. by eexists _, _, _. }
  destruct (grant (head (w_oracle w))
              (Nat.min (Nat.min (Pos.to_nat BUFFER_SIZE) limit)
                       (length (obj_avail (of_obj f)))))
    as [n|] eqn:Hg.
  - rewrite (read_granted BUFFER_SIZE limit d w f n Hfd Hg).
    eexists _, _, _. split; [reflexivity|]. simpl.
    apply grant_le in Hg. rewrite length_take.
    replace (n `min` length (obj_avail (of_obj f)))%nat with n by lia.
    split_and!; try done. lia.
  - destruct (head (w_oracle w)) as [[|m]|] eqn:Hh; try discriminate.
    rewrite (read_failed BUFFER_SIZE limit d w f Hfd Hh). by eexists _, _, _.
Qed.

Lemma obj_consume_0 f :
  mk_ofile (obj_consume (of_obj f) 0) (of_cloexec f) = f.
Proof.
  destruct f as [[q|data off] ce]; simpl; [done|]. by rewrite Nat.add_0_r.
Qed.

Lemma read_exactly_loop_state BUFFER_SIZE fuel n fs :
  forall acc d w f,
    w_fds w !! fd_ d = Some f ->
    forallb progress (w_oracle w) = true ->
    eof_ d = false ->
    (length acc <= n)%nat ->
    (n <= length acc + length (obj_avail (of_obj f)))%nat ->
    (n - length acc <= fuel)%nat ->
    exists d' w' f',
      read_exactly_loop BUFFER_SIZE fuel n fs acc d w
      = (Ok (acc ++ take (n - length acc) (obj_avail (of_obj f))), d', w') /\
      w_fds w' !! fd_ d' = Some f' /\
      obj_avail (of_obj f') = drop (n - length acc) (obj_avail (of_obj f)) /\
      fd_ d' = fd_ d /\ eof_ d' = false /\
      forallb progress (w_oracle w') = true.
Proof.
  induction fuel as [|fuel IH]; intros acc d w f Hfd Hp Heof Hacc Hn Hfuel.
  - simpl.
    assert ((length acc <? n)%nat = false) as -> by (apply Nat.ltb_ge; lia).
    assert ((length acc =? n)%nat = true) as -> by (apply Nat.eqb_eq; lia).
    replace (n - length acc)%nat with 0%nat by lia.
    rewrite take_0, app_nil_r. by exists d, w, f.
  - simpl. destruct (length acc <? n)%nat eqn:E.
    + apply Nat.ltb_lt in E.
      destruct (read_progress BUFFER_SIZE (n - length acc) d w f Hfd Hp)
        as (j & Hr & Hjl & Hja & Hpos).
      unfold bind at 1. rewrite Hr. unfold bind, eof.
      change (eof_ (after_read d j)) with (eof_ d || (j =? 0)%nat).
      rewrite Heof.
      assert (0 < j)%nat as Hj.
      { apply Hpos; [lia|].
        destruct (obj_avail (of_obj f)); [simpl in *; lia|done]. }
      destruct j as [|j]; [lia|]. cbn [orb Nat.eqb].
      set (j1 := S j) in *.
      destruct (IH (acc ++ take j1 (obj_avail (of_obj f))) (after_read d j1)
                  (consumed (fd_ d) f j1 w)
                  (mk_ofile (obj_consume (of_obj f) j1) (of_cloexec f)))
        as (d' & w' & f' & Hl & Hfd' & Hav & Hfdn & Heof' & Hp').
      * apply lookup_insert_eq.
      * by apply progress_tail.
      * simpl. by rewrite Heof.
      * rewrite length_app, length_take. lia.
      * simpl of_obj. rewrite obj_avail_consume, length_app, length_take,
          length_drop. lia.
      * rewrite length_app, length_take. lia.
      * exists d', w', f'. rewrite Hl. simpl of_obj in *.
        rewrite obj_avail_consume, length_app, length_take in *.
        replace (j1 `min` length (obj_avail (of_obj f)))%nat with j1 in * by lia.
        split_and!; try done.
        -- rewrite <- app_assoc. do 2 f_equal.
           replace (n - length acc)%nat
             with (j1 + (n - (length acc + j1)))%nat by lia.
           by rewrite take_plus.
        -- rewrite Hav, drop_drop. f_equal. lia.
    + assert ((length acc =? n)%nat = true) as ->
        by (apply Nat.eqb_eq; apply Nat.ltb_ge in E; lia).
      replace (n - length acc)%nat with 0%nat by (apply Nat.ltb_ge in E; lia).
      rewrite take_0, app_nil_r. by exists d, w, f.
Qed.

(** X3: [read_exactly] takes exactly the bytes it returns: when the
    descriptor holds enough, two calls in a row return the first [a] bytes
    and then the next [b], and what follows them is still there for later
    reads; the end-of-file flag stays clear. *)
Theorem read_exactly_frames (BUFFER_SIZE : positive) (a b : nat)
  (d : FileDescriptor) (w : World) (f : ofile) :
  w_fds w !! fd_ d = Some f ->
  forallb progress (w_oracle w) = true ->
  eof_ d = false ->
  (a + b <= length (obj_avail (of_obj f)))%nat ->
  exists d' w' f',
    (x <- read_exactly BUFFER_SIZE a false ;;
     y <- read_exactly BUFFER_SIZE b false ;;
     ret (x, y)) d w
    = (Ok (take a (obj_avail (of_obj f)),
           take b (drop a (obj_avail (of_obj f)))), d', w') /\
    w_fds w' !! fd_ d' = Some f' /\
    obj_avail (of_obj f') = drop (a + b) (obj_avail (of_obj f)) /\
    eof_ d' = false.
Proof.
  intros Hfd Hp Heof Hlen. unfold read_exactly.
  destruct (read_exactly_loop_state BUFFER_SIZE a a false [] d w f Hfd Hp Heof)
    as (d1 & w1 & f1 & Hr1 & Hfd1 & Hav1 & Hfdn1 & Heof1 & Hp1);
    [simpl; lia | simpl; lia | simpl; lia |].
  simpl in Hr1, Hav1. rewrite Nat.sub_0_r in Hr1, Hav1.
  destruct (read_exactly_loop_state BUFFER_SIZE b b false [] d1 w1 f1 Hfd1 Hp1
              Heof1)
    as (d2 & w2 & f2 & Hr2 & Hfd2 & Hav2 & Hfdn2 & Heof2 & Hp2);
    [simpl; lia | simpl; rewrite Hav1, length_drop; lia | simpl; lia |].
  simpl in Hr2, Hav2. rewrite Nat.sub_0_r, Hav1 in Hr2, Hav2.
  exists d2, w2, f2. unfold bind. rewrite Hr1, Hr2.
  split; [reflexivity|]. split; [exact Hfd2|].
  split; [|exact Heof2]. by rewrite Hav2, drop_drop.
Qed.

Lemma read_exactly_frames_witness :
  exists d' w' f',
    (x <- read_exactly 2 1 false ;;
     y <- read_exactly 2 2 false ;;
     ret (x, y)) (fresh 3) world_abc
    = (Ok ([byte_a], [byte_b; byte_c]), d', w') /\
    w_fds w' !! fd_ d' = Some f' /\
    obj_avail (of_obj f') = [] /\
    eof_ d' = false.
Proof.
  apply (read_exactly_frames 2 1 2 (fresh 3) world_abc
           (mk_ofile (Stream [byte_a; byte_b; byte_c]) true)).
  - reflexivity.
  - reflexivity.
  - reflexivity.
  - vm_compute. lia.
Defined.

Lemma reset_File d w data off ce :
  w_fds w !! fd_ d = Some (mk_ofile (File data off) ce) ->
  reset d w
  = (Ok tt, with_eof false d,
     set_fds (<[fd_ d := mk_ofile (File data 0) ce]> (w_fds w)) w).
Proof.
  intros Hfd. unfold reset, bind.
  rewrite (seek_File d w data off ce 0 SEEK_SET Hfd) by (simpl; lia).
  reflexivity.
Qed.

Lemma reset_then_read BUFFER_SIZE limit d w data off ce :
  w_fds w !! fd_ d = Some (mk_ofile (File data off) ce) ->
  (0 < limit)%nat ->
  forallb progress (w_oracle w) = true ->
  exists d' w',
    (reset ;;; read_until_eof BUFFER_SIZE (S (length data)) limit []) d w
    = (Ok data, d', w') /\
    eof_ d' = true.
Proof.
  intros Hfd Hlim Hp. unfold bind at 1. rewrite (reset_File d w data off ce Hfd).
  destruct (read_until_eof_all BUFFER_SIZE (S (length data)) limit []
              (with_eof false d)
              (set_fds (<[fd_ d := mk_ofile (File data 0) ce]> (w_fds w)) w)
              (mk_ofile (File data 0) ce) Hlim)
    as (d' & w' & Hr & Heof).
  - apply lookup_insert_eq.
  - exact Hp.
  - reflexivity.
  - cbn [of_obj obj_avail]. rewrite drop_0. lia.
  - exists d', w'. cbn [of_obj obj_avail] in Hr. rewrite drop_0 in Hr.
    by rewrite Hr.
Qed.

(** X4: [reset] makes a file readable from its start again: wherever the
    offset is and whether or not the end-of-file flag is set, reading until
    end of file after a [reset] returns the whole contents of the file. *)
Theorem reset_rereads (BUFFER_SIZE : positive) (limit : nat)
  (d : FileDescriptor) (w : World) (data : bytes) (off : nat) (ce : bool) :
  w_fds w !! fd_ d = Some (mk_ofile (File data off) ce) ->
  (0 < limit)%nat ->
  forallb progress (w_oracle w) = true ->
  exists d' w',
    (reset ;;; read_until_eof BUFFER_SIZE (S (length data)) limit []) d w
    = (Ok data, d', w') /\
    eof_ d' = true.
Proof. apply reset_then_read. Qed.

Lemma reset_rereads_witness :
  exists d' w',
    (reset ;;; read_until_eof 2 4 2 []) (with_eof true (fresh 4)) world_file
    = (Ok [byte_a; byte_b; byte_c], d', w') /\
    eof_ d' = true.
Proof.
  apply (reset_rereads 2 2 (with_eof true (fresh 4)) world_file
           [byte_a; byte_b; byte_c] 3 true).
  - reflexivity.
  - lia.
  - reflexivity.
Defined.

(** X5: the round trip through a file.  On a descriptor open on a file and
    positioned at its end, writing a non-empty sequence with [write_all],
    then [reset], then reading until end of file returns the former
    contents of the file followed by the sequence. *)
Theorem file_round_trip (BUFFER_SIZE : positive) (limit : nat) (s : bytes)
  (d : FileDescriptor) (w : World) (data : bytes) (ce : bool) :
  s <> [] ->
  (0 < limit)%nat ->
  w_fds w !! fd_ d = Some (mk_ofile (File data (length data)) ce) ->
  forallb progress (w_oracle w) = true ->
  exists d' w',
    (write s true ;;; reset ;;;
     read_until_eof BUFFER_SIZE (S (length (data ++ s))) limit []) d w
    = (Ok (data ++ s), d', w') /\
    eof_ d' = true.
Proof.
  intros Hs Hlim Hfd Hp. unfold write.
  destruct (write_loop_appending (S (length s)) s true data 0%nat d w _ Hfd)
    as (r & d1 & w1 & f1 & k & Hr & Hfd1 & Happ1 & Hseek1 & Hdata1 & _ & _ & _
        & Hres & Hprog);
    [simpl; apply Nat.eqb_refl | by rewrite take_0, app_nil_r | lia | lia |].
  destruct (Hprog Hp) as [Hp1 Hok].
  destruct Hok as [it ->]; [destruct s; [done|simpl; lia]|].
  destruct Hres as (-> & _ & Hall). specialize (Hall eq_refl). subst k.
  rewrite take_ge in Hdata1 by lia.
  destruct f1 as [[q|data1 off1] ce1]; [discriminate|].
  simpl in Hdata1, Happ1. subst data1. apply Nat.eqb_eq in Happ1. subst off1.
  destruct (reset_then_read BUFFER_SIZE limit d1 w1 (data ++ s)
              (length (data ++ s)) ce1 Hfd1 Hlim Hp1)
    as (d' & w' & Hrr & Heof).
  exists d', w'. unfold bind at 1. rewrite Hr. by rewrite Hrr.
Qed.

Lemma file_round_trip_witness :
  exists d' w',
    (write [byte_b; byte_a] true ;;; reset ;;;
     read_until_eof 2 (S (length ([byte_a; byte_b; byte_c] ++ [byte_b; byte_a])))
       2 []) (fresh 4) world_file
    = (Ok ([byte_a; byte_b; byte_c] ++ [byte_b; byte_a]), d', w') /\
    eof_ d' = true.
Proof.
  apply (file_round_trip 2 2 [byte_b; byte_a] (fresh 4) world_file
           [byte_a; byte_b; byte_c] true).
  - discriminate.
  - lia.
  - reflexivity.
  - reflexivity.
Defined.

(** ** seek *)

Lemma seek_refused d w offset wh :
  (sys_lseek (fd_ d) offset wh w).1 = -1 ->
  (sys_lseek (fd_ d) offset wh w).2 = w ->
  seek offset wh d w = (Throw (unix_error "lseek"), d, w).
Proof.
  intros H1 H2. unfold seek, bind, fd_num, syscall.
  destruct (sys_lseek (fd_ d) offset wh w) as [rv w']. simpl in *.
  by subst.
Qed.




(** ** close, the destructor and the move constructor *)

Lemma notify_epollers_fds fd items w :
  w_fds (notify_epollers fd items w) = w_fds w.
Proof. by rewrite notify_epollers_spec. Qed.

Lemma sys_close_fds fd w :
  w_fds (sys_close fd w).2 = delete fd (w_fds w).
Proof.
  unfold sys_close, pop_choice. simpl.
  destruct (w_fds w !! fd) eqn:E.
  - by destruct (head (w_oracle w)) as [[|n]|].
  - simpl. by rewrite delete_id.
Qed.

Lemma close_fds d w :
  0 <= fd_ d -> w_fds (close d w).2 = delete (fd_ d) (w_fds w).
Proof.
  intros Hfd. unfold close.
  destruct (fd_ d <? 0) eqn:E; [lia|].
  pose proof (sys_close_fds (fd_ d)
                (notify_epollers (fd_ d) (map_to_list (epollers_ d)) w)) as H.
  rewrite notify_epollers_fds in H.
  destruct (sys_close _ _) as [rv w2]. simpl in H.
  by destruct (CheckSystemCall "close" rv).
Qed.

(** X7: a descriptor that was closed refuses every use.  After a [close]
    that returned, [read], [write] of a non-empty buffer and [seek] throw
    the system-call error and change nothing, and the kernel no longer
    holds the old descriptor number.  (The kernel has no descriptor -1.) *)
Theorem closed_descriptor_refuses (BUFFER_SIZE : positive) (d d1 : FileDescriptor)
  (w w1 : World) :
  0 <= fd_ d ->
  w_fds w !! (-1) = None ->
  close d w = (Ok tt, d1, w1) ->
  w_fds w1 !! fd_ d = None /\
  (forall limit,
     read BUFFER_SIZE limit d1 w1 = (Throw (unix_error "read"), d1, w1)) /\
  (forall buffer write_all,
     buffer <> [] ->
     write buffer write_all d1 w1 = (Throw (unix_error "write"), d1, w1)) /\
  (forall offset wh,
     seek offset wh d1 w1 = (Throw (unix_error "lseek"), d1, w1)).
Proof.
  intros Hfd Hneg Hclose.
  pose proof (close_fds d w Hfd) as Hfds. rewrite Hclose in Hfds.
  simpl in Hfds.
  assert (Hd1 : fd_ d1 = -1).
  { destruct (close_spec d w Hfd) as (rv & w' & _ & [[_ H] | [_ H]]);
      rewrite Hclose in H; [|discriminate].
    by injection H as -> _. }
  assert (Hgone : w_fds w1 !! fd_ d1 = None).
  { rewrite Hd1, Hfds. rewrite lookup_delete_ne by lia. exact Hneg. }
  split; [rewrite Hfds; apply lookup_delete_eq|].
  split; [|split].
  - intros limit. by apply read_closed.
  - intros buffer write_all Hne. unfold write. simpl.
    unfold write_range.
    assert ((length buffer <=? 0)%nat = false) as ->.
    { apply Nat.leb_gt. destruct buffer; [done|simpl; lia]. }
    unfold bind, fd_num, syscall, sys_write. by rewrite Hgone.
  - intros offset wh. apply seek_refused; unfold sys_lseek; by rewrite Hgone.
Qed.

Lemma closed_descriptor_refuses_witness :
  w_fds (close attached3 world0).2 !! 3 = None /\
  read 4 8 (close attached3 world0).1.2 (close attached3 world0).2
  = (Throw (unix_error "read"), (close attached3 world0).1.2,
     (close attached3 world0).2).
Proof.
  destruct (closed_descriptor_refuses 4 attached3
              (close attached3 world0).1.2 world0 (close attached3 world0).2)
    as (H1 & H2 & _).
  - vm_compute. discriminate.
  - reflexivity.
  - reflexivity.
  - split; [exact H1 | apply H2].
Defined.

Lemma closes_app fd l1 l2 :
  closes fd (l1 ++ l2) = (closes fd l1 + closes fd l2)%nat.
Proof. unfold closes. by rewrite filter_app, length_app. Qed.

Lemma closes_notifications fd d w : closes fd (notifications d w) = 0%nat.
Proof.
  unfold closes, notifications. induction (live_refs d w) as [|it l IH].
  - reflexivity.
  - simpl. rewrite filter_cons_False; [exact IH|]. simpl. discriminate.
Qed.

Lemma closes_exceptions fd tail :
  (forall e, e ∈ tail -> exists s x, e = EvException s x) ->
  closes fd tail = 0%nat.
Proof.
  unfold closes. induction tail as [|e tail IH]; intros H; [reflexivity|].
  destruct (H e) as (s & x & ->); [apply list_elem_of_here|].
  rewrite filter_cons_False by (simpl; discriminate).
  apply IH. intros e He. apply H. by apply list_elem_of_further.
Qed.

Lemma destroy_spec (d : FileDescriptor) (w : World) :
  exists d' w',
    destroy d w = (Ok tt, d', w') /\
    (0 <= fd_ d ->
     w_fds w' !! fd_ d = None /\ closes (fd_ d) (new_events w w') = 1%nat) /\
    (fd_ d < 0 -> d' = d /\ w' = w).
Proof.
  destruct (Z.lt_ge_cases (fd_ d) 0) as [Hneg | Hfd].
  - exists d, w. unfold destroy, close.
    assert ((fd_ d <? 0) = true) as -> by by apply Z.ltb_lt.
    split; [reflexivity|]. split; [lia|done].
  - destruct (close_trace d w Hfd) as (r & d' & w' & Hc & Htr & Hfds & Hr).
    assert (Hcount : forall tail,
              (forall e, e ∈ tail -> exists s x, e = EvException s x) ->
              closes (fd_ d)
                (notifications d w ++ EvClose (fd_ d) :: tail) = 1%nat).
    { intros tail Htail. rewrite closes_app, closes_notifications.
      change (EvClose (fd_ d) :: tail) with ([EvClose (fd_ d)] ++ tail).
      rewrite closes_app, (closes_exceptions _ tail Htail).
      unfold closes. rewrite filter_cons_True by (simpl; apply Z.eqb_refl).
      reflexivity. }
    unfold destroy. rewrite Hc.
    destruct Hr as [[-> ->] | [-> ->]].
    + eexists _, _. split; [reflexivity|]. split; [|lia]. intros _.
      split; [exact Hfds|].
      rewrite (new_events_app w w' _ Htr).
      apply (Hcount []). intros e He. by apply elem_of_nil in He.
    + eexists _, _. split; [reflexivity|]. split; [|lia]. intros _.
      split; [exact Hfds|].
      erewrite new_events_app
        by (simpl; rewrite Htr, <- !app_assoc; reflexivity).
      simpl. apply (Hcount [_]). intros e He.
      apply list_elem_of_singleton in He. eauto.
Qed.

(** X8: the destructor never throws, in any state.  On a valid descriptor
    it asks the kernel to close the descriptor exactly once and the kernel
    no longer holds it afterwards; on an invalid one it does nothing. *)
Theorem destroy_never_throws (d : FileDescriptor) (w : World) :
  exists d' w',
    destroy d w = (Ok tt, d', w') /\
    (0 <= fd_ d ->
     w_fds w' !! fd_ d = None /\ closes (fd_ d) (new_events w w') = 1%nat) /\
    (fd_ d < 0 -> d' = d /\ w' = w).
Proof. apply destroy_spec. Qed.

Lemma destroy_never_throws_witness :
  exists d' w',
    destroy attached_many world_faulty = (Ok tt, d', w') /\
    w_fds w' !! 3 = None /\
    closes 3 (new_events world_faulty w') = 1%nat.
Proof.
  destruct (destroy_never_throws attached_many world_faulty)
    as (d' & w' & Hrun & Hvalid & _).
  exists d', w'. split; [exact Hrun|].
  apply Hvalid. vm_compute. discriminate.
Defined.

(** X9: a move leaves one owner.  The new object is the old one as it was;
    what is left of the old one is invalid, so that closing or destroying
    it does nothing, whatever the move left in its back-reference map.
    Destroying both objects, in either order, asks the kernel to close a
    valid descriptor exactly once. *)
Theorem move_leaves_one_owner (leftover : gmap Z addr) (other : FileDescriptor)
  (w : World) :
  let new := (move_construct leftover other).1 in
  let old := (move_construct leftover other).2 in
  new = other /\
  fd_ old = -1 /\
  close old w = (Ok tt, old, w) /\
  destroy old w = (Ok tt, old, w) /\
  (0 <= fd_ other ->
   closes (fd_ other) (new_events w (destroy new (destroy old w).2).2) = 1%nat
   /\
   closes (fd_ other) (new_events w (destroy old (destroy new w).2).2) = 1%nat).
Proof.
  intros new old.
  assert (Hnew : new = other) by (subst new; by destruct other).
  split; [exact Hnew|]. split; [reflexivity|].
  split; [reflexivity|]. split; [reflexivity|].
  intros Hfd. rewrite Hnew.
  destruct (destroy_spec other w) as (d' & w' & Hd & Hvalid & _).
  destruct (Hvalid Hfd) as [_ Hone].
  split.
  - change (destroy old w) with (Ok tt, old, w). simpl. by rewrite Hd.
  - rewrite Hd. simpl.
    change (destroy old w') with (Ok tt, old, w'). exact Hone.
Qed.

Lemma move_leaves_one_owner_witness :
  closes 3 (new_events world1
              (destroy (move_construct ∅ attached_many).1
                 (destroy (move_construct ∅ attached_many).2 world1).2).2)
  = 1%nat.
Proof.
  destruct (move_leaves_one_owner ∅ attached_many world1)
    as (_ & _ & _ & _ & H).
  apply H. vm_compute. discriminate.
Defined.

(** ** attach and detach *)

Lemma with_epollers_id d : with_epollers (epollers_ d) d = d.
Proof. by destruct d. Qed.

(** X10: attaching an Epoller under a free key and detaching that key
    brings the descriptor back to what it was, without a warning; and while
    it is attached, a [close] of the valid descriptor tells that Epoller to
    deregister it. *)
Theorem attach_then_detach (p : addr) (key : Z) (d : FileDescriptor)
  (w : World) :
  w_epollers w !! p = Some key ->
  epollers_ d !! key = None ->
  (attach_epoller p ;;; detach_epoller key) d w = (Ok tt, d, w) /\
  (0 <= fd_ d ->
   EvDeregister p (fd_ d)
     ∈ new_events w ((attach_epoller p ;;; close) d w).2).
Proof.
  intros Hp Hfree. unfold bind, attach_epoller. rewrite Hp, Hfree.
  split.
  - unfold detach_epoller. simpl. rewrite lookup_insert_eq.
    unfold with_epollers. simpl. rewrite delete_insert_id by done.
    by destruct d.
  - intros Hfd.
    set (d1 := with_epollers (<[key:=p]> (epollers_ d)) d).
    destruct (close_trace d1 w Hfd) as (r & d' & w' & Hc & Htr & _).
    rewrite Hc. simpl. rewrite (new_events_app _ _ _ Htr).
    apply elem_of_app. left. apply elem_of_notifications.
    exists key, p. split; [done|]. split; [apply lookup_insert_eq|].
    by rewrite Hp.
Qed.

Lemma attach_then_detach_witness :
  (attach_epoller 1%nat ;;; detach_epoller 7) (fresh 3) world0
  = (Ok tt, fresh 3, world0).
Proof.
  apply (attach_then_detach 1%nat 7 (fresh 3) world0); reflexivity.
Defined.

(** X11: a back-reference that went stale keeps its key.  When the map
    still holds, under some key, a reference to an Epoller that is gone,
    and a live Epoller has that descriptor number, [attach_epoller] of the
    live one warns and stores nothing, so that the [close] that follows
    does not tell it to deregister the descriptor. *)
Theorem stale_reference_keeps_key (p q : addr) (key : Z)
  (d : FileDescriptor) (w : World) :
  keyed d w = true ->
  w_epollers w !! p = Some key ->
  epollers_ d !! key = Some q ->
  w_epollers w !! q = None ->
  0 <= fd_ d ->
  exists r d' w',
    (attach_epoller p ;;; close) d w = (r, d', w') /\
    epollers_ d' = epollers_ d /\
    EvWarning key ∈ new_events w w' /\
    EvClose (fd_ d) ∈ new_events w w' /\
    forall fd, EvDeregister p fd ∉ new_events w w'.
Proof.
  intros Hkeyed Hp Hq Hgone Hfd.
  assert (Hattach : attach_epoller p d w = (Ok tt, d, emit (EvWarning key) w)).
  { unfold attach_epoller. by rewrite Hp, Hq. }
  destruct (close_trace d (emit (EvWarning key) w) Hfd)
    as (r & d' & w' & Hc & Htr & _ & Hr).
  exists r, d', w'. unfold bind. rewrite Hattach, Hc.
  assert (Hnew : new_events w w'
                 = EvWarning key
                   :: notifications d (emit (EvWarning key) w)
                   ++ [EvClose (fd_ d)]).
  { apply new_events_app. rewrite Htr. simpl. by rewrite <- app_assoc. }
  split; [reflexivity|]. split.
  { by destruct Hr as [[_ ->] | [_ ->]]. }
  rewrite Hnew. split; [apply list_elem_of_here|]. split.
  { apply list_elem_of_further, elem_of_app. right. apply list_elem_of_here. }
  intros fd Hin.
  apply elem_of_cons in Hin as [Hin | Hin]; [discriminate|].
  apply elem_of_app in Hin as [Hin | Hin].
  - apply elem_of_notifications in Hin as (k & p' & [= <- _] & Hk & Hlive).
    simpl in Hlive.
    assert (key = k) as <- by by apply (keyed_spec d w Hkeyed k p key).
    rewrite Hq in Hk. injection Hk as ->. rewrite Hgone in Hp. discriminate.
  - apply list_elem_of_singleton in Hin. discriminate.
Qed.

Lemma stale_reference_keeps_key_witness :
  exists r d' w',
    (attach_epoller 1%nat ;;; close) stale3 world0 = (r, d', w') /\
    forall fd, EvDeregister 1%nat fd ∉ new_events world0 w'.
Proof.
  destruct (stale_reference_keeps_key 1%nat 5%nat 7 stale3 world0)
    as (r & d' & w' & Hrun & _ & _ & _ & Hnone).
  - reflexivity.
  - reflexivity.
  - reflexivity.
  - reflexivity.
  - vm_compute. discriminate.
  - exists r, d', w'. split; [exact Hrun | exact Hnone].
Defined.

Lemma calls_state cs :
  forall d w,
    keyed d w = true ->
    (calls cs d w).1.1 = Ok tt /\
    keyed (calls cs d w).1.2 (calls cs d w).2 = true /\
    fd_ (calls cs d w).1.2 = fd_ d /\
    w_fds (calls cs d w).2 = w_fds w /\
    w_epollers (calls cs d w).2 = w_epollers w.
Proof.
  induction cs as [|c cs IH]; intros d w Hk; [done|].
  cbn [calls]. unfold bind.
  assert (Hone : exists d1 w1,
            call c d w = (Ok tt, d1, w1) /\ keyed d1 w1 = true /\
            fd_ d1 = fd_ d /\ w_fds w1 = w_fds w /\
            w_epollers w1 = w_epollers w).
  { destruct c as [p|k]; simpl.
    - pose proof (keyed_attach p d w Hk) as H. unfold attach_epoller in *.
      destruct (w_epollers w !! p) as [key|]; [|by exists d, w].
      destruct (epollers_ d !! key); eexists _, _; by split_and!.
    - pose proof (keyed_detach k d w Hk) as H. unfold detach_epoller in *.
      destruct (epollers_ d !! k); eexists _, _; by split_and!. }
  destruct Hone as (d1 & w1 & -> & Hk1 & Hfd1 & Hfds1 & Hep1).
  destruct (IH d1 w1 Hk1) as (Hr & Hk2 & Hfd2 & Hfds2 & Hep2).
  split_and!; try done; congruence.
Qed.

(** X12: attaching and detaching, in any number and order, never throw,
    leave the descriptor number and the kernel's descriptors alone, and
    keep every live back-reference under its Epoller's own descriptor
    number. *)
Theorem attach_detach_keep_keyed (cs : list epoller_call) (d : FileDescriptor)
  (w : World) :
  keyed d w = true ->
  (calls cs d w).1.1 = Ok tt /\
  keyed (calls cs d w).1.2 (calls cs d w).2 = true /\
  fd_ (calls cs d w).1.2 = fd_ d /\
  w_fds (calls cs d w).2 = w_fds w /\
  w_epollers (calls cs d w).2 = w_epollers w.
Proof. apply calls_state. Qed.

Lemma attach_detach_keep_keyed_witness :
  keyed (calls [Attach 1%nat; Attach 2%nat; Detach 9; Attach 1%nat; Detach 7]
           (fresh 3) world1).1.2
        (calls [Attach 1%nat; Attach 2%nat; Detach 9; Attach 1%nat; Detach 7]
           (fresh 3) world1).2
  = true.
Proof.
  apply (attach_detach_keep_keyed
           [Attach 1%nat; Attach 2%nat; Detach 9; Attach 1%nat; Detach 7]
           (fresh 3) world1).
  reflexivity.
Defined.

(** ** set_blocking *)

Lemma set_blocking_open O_NONBLOCK block d flags fl :
  flags !! fd_ d = Some fl ->
  0 <= fl ->
  set_blocking O_NONBLOCK block d flags
  = (Ok tt,
     <[fd_ d := if block then Z.land fl (Z.lnot O_NONBLOCK)
                else Z.lor fl O_NONBLOCK]> flags).
Proof.
  intros Hfl Hpos. unfold set_blocking, sys_fcntl_getfl, sys_fcntl_setfl.
  rewrite Hfl. unfold CheckSystemCall.
  assert ((fl <? 0) = false) as -> by (apply Z.ltb_ge; lia).
  reflexivity.
Qed.

(** X13: [set_blocking] changes the O_NONBLOCK bits of the descriptor's
    status flags and nothing else: afterwards these bits are all clear
    (blocking) or all set (non-blocking), every other bit of the flags is
    what it was, and the flags of the other descriptors are untouched. *)
Theorem set_blocking_changes_only_nonblock (O_NONBLOCK : Z) (block : bool)
  (d : FileDescriptor) (flags : gmap Z Z) (fl : Z) :
  flags !! fd_ d = Some fl ->
  0 <= fl ->
  exists fl' flags',
    set_blocking O_NONBLOCK block d flags = (Ok tt, flags') /\
    flags' !! fd_ d = Some fl' /\
    Z.land fl' O_NONBLOCK = (if block then 0 else O_NONBLOCK) /\
    (forall i, Z.testbit O_NONBLOCK i = false ->
               Z.testbit fl' i = Z.testbit fl i) /\
    (forall fd, fd <> fd_ d -> flags' !! fd = flags !! fd).
Proof.
  intros Hfl Hpos. rewrite (set_blocking_open _ _ _ _ _ Hfl Hpos).
  eexists _, _. split; [reflexivity|].
  split; [apply lookup_insert_eq|]. split; [|split].
  - destruct block.
    + rewrite <- Z.land_assoc, (Z.land_comm (Z.lnot _)), Z.land_lnot_diag.
      apply Z.land_0_r.
    + apply Z.bits_inj'. intros i Hi.
      rewrite Z.land_spec, Z.lor_spec.
      by destruct (Z.testbit fl i), (Z.testbit O_NONBLOCK i).
  - intros i Hi. destruct (Z.neg_nonneg_cases i) as [Hneg|Hnn].
    { by rewrite !Z.testbit_neg_r. }
    destruct block.
    + rewrite Z.land_spec, Z.lnot_spec, Hi by done. apply andb_true_r.
    + rewrite Z.lor_spec, Hi. apply orb_false_r.
  - intros fd Hne. by apply lookup_insert_ne.
Qed.

Lemma set_blocking_changes_only_nonblock_witness :
  exists fl' flags',
    set_blocking 2048 false (fresh 3) (<[3 := 2]> ∅) = (Ok tt, flags') /\
    flags' !! 3 = Some fl' /\
    Z.land fl' 2048 = 2048.
Proof.
  destruct (set_blocking_changes_only_nonblock 2048 false (fresh 3)
              (<[3 := 2]> ∅) 2)
    as (fl' & flags' & H1 & H2 & H3 & _).
  - reflexivity.
  - lia.
  - by exists fl', flags'.
Defined.

(** X14: the last [set_blocking] decides.  Two calls in a row leave the
    flags as the second call alone would, so that a call repeated changes
    nothing more; a call on a descriptor the kernel does not hold throws
    and leaves all flags alone. *)
Theorem set_blocking_last_wins (O_NONBLOCK : Z) (first second : bool)
  (d : FileDescriptor) (flags : gmap Z Z) (fl : Z) :
  0 <= O_NONBLOCK ->
  flags !! fd_ d = Some fl ->
  0 <= fl ->
  (set_blocking O_NONBLOCK first d flags).1 = Ok tt /\
  set_blocking O_NONBLOCK second d (set_blocking O_NONBLOCK first d flags).2
  = set_blocking O_NONBLOCK second d flags /\
  (forall d0, flags !! fd_ d0 = None ->
     set_blocking O_NONBLOCK second d0 flags
     = (Throw (unix_error "fcntl F_GETFL"), flags)).
Proof.
  intros Hmask Hfl Hpos.
  rewrite (set_blocking_open _ first _ _ _ Hfl Hpos).
  split; [reflexivity|]. split.
  - cbn [snd].
    set (fl1 := if first then Z.land fl (Z.lnot O_NONBLOCK)
                else Z.lor fl O_NONBLOCK).
    assert (Hfl1 : 0 <= fl1).
    { subst fl1. destruct first;
        [apply Z.land_nonneg; by left | by apply Z.lor_nonneg]. }
    rewrite (set_blocking_open _ second d (<[fd_ d := fl1]> flags) fl1)
      by (done || apply lookup_insert_eq).
    rewrite (set_blocking_open _ second _ _ _ Hfl Hpos).
    rewrite insert_insert_eq. do 2 f_equal.
    subst fl1. apply Z.bits_inj'. intros i Hi.
    destruct first, second;
      repeat first [rewrite Z.land_spec | rewrite Z.lor_spec
                   | rewrite Z.lnot_spec by done];
      by destruct (Z.testbit fl i), (Z.testbit O_NONBLOCK i).
  - intros d0 H0. unfold set_blocking, sys_fcntl_getfl. by rewrite H0.
Qed.

Lemma set_blocking_last_wins_witness :
  set_blocking 2048 true (fresh 3)
    (set_blocking 2048 false (fresh 3) (<[3 := 2]> ∅)).2
  = set_blocking 2048 true (fresh 3) (<[3 := 2]> ∅).
Proof.
  destruct (set_blocking_last_wins 2048 false true (fresh 3) (<[3 := 2]> ∅) 2)
    as (_ & H & _).
  - lia.
  - reflexivity.
  - lia.
  - exact H.
Defined.

(** * Properties of the launcher *)

Import Servers.

Example main_up :
  spawned (main (outside0 false) ["run_servers"; "settings.yml"] env_up)
  = [mk_Child "/opt/puffer/src/media-server/ws_media_server"
       ["/opt/puffer/src/media-server/ws_media_server"; "/etc/settings.yml";
        "1"; "1"];
     mk_Child "/opt/puffer/src/media-server/ws_media_server"
       ["/opt/puffer/src/media-server/ws_media_server"; "/etc/settings.yml";
        "2"; "1"]].
Proof. reflexivity. Qed.

Example main_down :
  spawned (main (outside0 false) ["run_servers"; "settings.yml"] env_down)
  = [mk_Child "/opt/puffer/src/media-server/ws_media_server"
       ["/opt/puffer/src/media-server/ws_media_server"; "/etc/settings.yml";
        "1"; "-1"];
     mk_Child "/opt/puffer/src/media-server/ws_media_server"
       ["/opt/puffer/src/media-server/ws_media_server"; "/etc/settings.yml";
        "2"; "-1"]].
Proof. reflexivity. Qed.

Example main_logging :
  length (spawned (main (outside0 true) ["run_servers"; "settings.yml"] env_up))
  = 14%nat.
Proof. reflexivity. Qed.

(** ** retrieve_expt_id *)

#[local] Arguments existsb : simpl never.

Ltac run_body :=
  unfold retrieve_expt_id, retrieve_body, begin_work, select_id,
    insert_json, commit, as_int;
  unfold bind, ext, ret, rollback, print_exception;
  repeat (simpl;
          match goal with
          | |- context [faulty ?env ?s] =>
              lazymatch env with
              | mk_Env _ _ _ _ _ => fail
              | _ => destruct (faulty env s) eqn:?
              end
          end);
  simpl.

Lemma single_field_map (rows : list Row) (z : Z) :
  single_field (map (fun r => [row_id r]) rows) = Some z ->
  exists r, rows = [r] /\ row_id r = z.
Proof.
  destruct rows as [|r [|r' rows]]; simpl; try discriminate.
  intros [= <-]. by exists r.
Qed.

Lemma retrieve_cases (X : Outside) (json : string) (env : Env) :
  exists id env',
    retrieve_expt_id X json env = (id, env') /\
    faulty env' = faulty env /\
    uncommitted env' = [] /\
    (next_serial env' = next_serial env \/
     next_serial env' = next_serial env + 1) /\
    ((id = -1 /\ table env' = table env) \/
     (exists r, r ∈ table env /\ row_hash r = sha256 X json /\
                id = row_id r /\ table env' = table env) \/
     (table env'
      = table env ++ [mk_Row (next_serial env) (sha256 X json) json] /\
      next_serial env' = next_serial env + 1 /\
      (id = next_serial env \/ id = -1))).
Proof.
  run_body.
  all: try (eexists _, _; split; [reflexivity|]; simpl; by auto 6).
  rewrite app_nil_r.
  destruct (single_field _) as [field|] eqn:Hsf.
  - apply single_field_map in Hsf as (r & Hrows & <-).
    assert (r ∈ table env /\ row_hash r = sha256 X json) as [Hin Hhash].
    { assert (r ∈ filter (fun r => row_hash r = sha256 X json) (table env))
        as Hr by (rewrite Hrows; apply list_elem_of_here).
      apply list_elem_of_filter in Hr. tauto. }
    destruct ((INT_MIN <=? row_id r) && (row_id r <=? INT_MAX));
      (eexists _, _; split; [reflexivity|]); simpl.
    + do 3 (split; [by auto|]). right. left. by exists r.
    + do 3 (split; [by auto|]). by left.
  - simpl. destruct (faulty env StInsert);
      [eexists _, _; split; [reflexivity|]; simpl; by auto 6|].
    simpl. rewrite app_nil_r.
    destruct (existsb _ (table env));
      [eexists _, _; split; [reflexivity|]; simpl; by auto 6|].
    simpl. destruct (faulty env StCommit);
      [eexists _, _; split; [reflexivity|]; simpl; by auto 6|].
    simpl.
    destruct ((INT_MIN <=? next_serial env) && (next_serial env <=? INT_MAX));
      (eexists _, _; split; [reflexivity|]); simpl; auto 10.
Qed.


Ltac closes_body :=
  eexists _, _; split; [reflexivity|]; simpl; split; [reflexivity|];
  split; intros; first [by eauto | intuition congruence | congruence].

Lemma retrieve_body_cases (X : Outside) (json : string) (env : Env) :
  exists o env1,
    retrieve_body X json env = (o, env1) /\
    stderr env1 = stderr env /\
    (faulty env StHash = true \/ faulty env StConnString = true \/
     faulty env StConnect = true \/ faulty env StCreateTable = true \/
     faulty env StPrepare = true \/ faulty env StBegin = true \/
     faulty env StSelect = true -> exists e, o = Thrown e) /\
    (faulty env StInsert = true ->
     filter (fun r => row_hash r = sha256 X json) (table env) = [] ->
     exists e, o = Thrown e).
Proof.
  unfold retrieve_body, begin_work, select_id, insert_json, commit, as_int.
  unfold bind, ext, ret.
  repeat (simpl;
          match goal with
          | |- context [faulty ?env ?s] =>
              lazymatch s with
              | StInsert => fail
              | StCommit => fail
              | _ => destruct (faulty env s) eqn:?
              end
          end);
  simpl.
  all: try by closes_body.
  rewrite app_nil_r.
  destruct (filter _ (table env)) as [|r [|r' rows]] eqn:Hrows; simpl.
  2: { destruct ((INT_MIN <=? row_id r) && (row_id r <=? INT_MAX));
         closes_body. }
  all: destruct (faulty env StInsert) eqn:Hins; [by closes_body|].
  all: simpl; rewrite app_nil_r; destruct (existsb _ (table env));
    [by closes_body|].
  all: simpl; destruct (faulty env StCommit); simpl; [by closes_body|].
  all: destruct ((INT_MIN <=? next_serial env)
                 && (next_serial env <=? INT_MAX)); closes_body.
Qed.

(** C9: [retrieve_expt_id] returns an integer in every case.  An exception
    of the try block is caught, logged under the name of the function, and
    answered by -1; that is what happens when the hash, the connection or
    the SELECT fails, and when the INSERT fails after no row was found.  A
    result that is not negative is the id of a row that holds the hash of
    the input, found in the table or added to it. *)
Theorem retrieve_expt_id_catches (X : Outside) (json : string) (env : Env) :
  exists id env',
    retrieve_expt_id X json env = (id, env') /\
    (forall e env1, retrieve_body X json env = (Thrown e, env1) ->
       id = -1 /\ stderr env' = stderr env ++ [("retrieve_expt_id", e)]) /\
    (faulty env StHash = true \/ faulty env StConnect = true \/
     faulty env StSelect = true ->
       id = -1 /\
       exists e, stderr env' = stderr env ++ [("retrieve_expt_id", e)]) /\
    (faulty env StInsert = true ->
     filter (fun r => row_hash r = sha256 X json) (table env) = [] ->
       id = -1 /\
       exists e, stderr env' = stderr env ++ [("retrieve_expt_id", e)]) /\
    (0 <= id ->
       exists r, r ∈ table env' /\ row_id r = id /\
                 row_hash r = sha256 X json /\
                 (r ∈ table env \/ table env' = table env ++ [r])).
Proof.
  destruct (retrieve_cases X json env)
    as (id & env' & Hr & _ & _ & _ & Hcases).
  exists id, env'. split; [exact Hr|].
  destruct (retrieve_body_cases X json env)
    as (o & env1 & Hb & Herr & Hearly & Hins).
  unfold retrieve_expt_id in Hr. rewrite Hb in Hr.
  assert (Hthrown : forall e, o = Thrown e ->
            id = -1 /\ stderr env' = stderr env ++ [("retrieve_expt_id", e)]).
  { intros e ->. injection Hr as <- <-. simpl. by rewrite Herr. }
  split; [|split; [|split]].
  - intros e env2 Hb'. rewrite Hb in Hb'. injection Hb' as -> _.
    by apply Hthrown.
  - intros H. destruct Hearly as [e He]; [tauto|].
    destruct (Hthrown e He). eauto.
  - intros H1 H2. destruct (Hins H1 H2) as [e He].
    destruct (Hthrown e He). eauto.
  - intros Hid. destruct Hcases as [[-> _] | [(r & Hin & Hh & -> & Ht) | (Ht & _ & [-> | ->])]];
      [lia | | | lia].
    + exists r. rewrite Ht. auto.
    + eexists. rewrite Ht. split; [apply elem_of_app; right; apply list_elem_of_here|].
      simpl. auto.
Qed.

Lemma retrieve_expt_id_catches_witness :
  exists id env',
    retrieve_expt_id (outside0 false) "{}" env_down = (id, env') /\
    id = -1 /\
    exists e, stderr env' = [("retrieve_expt_id", e)].
Proof.
  destruct (retrieve_expt_id_catches (outside0 false) "{}" env_down)
    as (id & env' & Hr & _ & Hfault & _).
  exists id, env'. split; [exact Hr|].
  apply Hfault. right. left. reflexivity.
Defined.


(** ** The loops of main *)

Lemma to_string_inj a b : to_string a = to_string b -> a = b.
Proof.
  unfold to_string. intros H. apply to_int_inj.
  apply (f_equal NilEmpty.int_of_string) in H.
  rewrite !NilEmpty.isi in H. by injection H.
Qed.

Example path_join_cases :
  path_join "/var/log" "video_sent.conf" = "/var/log/video_sent.conf" /\
  path_join "/var/log/" "video_sent.conf" = "/var/log/video_sent.conf" /\
  path_join "" "video_sent.conf" = "video_sent.conf" /\
  path_join "/" "video_sent.conf" = "/video_sent.conf" /\
  path_join "/var/log" "/tmp/video_sent.conf" = "/tmp/video_sent.conf".
Proof. repeat split; reflexivity. Qed.

Lemma path_join_inj dir a b :
  is_absolute a = false -> is_absolute b = false ->
  path_join dir a = path_join dir b -> a = b.
Proof.
  unfold path_join. intros -> -> H.
  destruct (has_filename dir).
  - apply String.app_inj in H. by apply String.app_inj in H.
  - by apply String.app_inj in H.
Qed.

Lemma wrap_int_small z : INT_MIN <= z <= INT_MAX -> wrap_int z = z.
Proof.
  unfold wrap_int, INT_MIN, INT_MAX. intros H.
  rewrite Z.mod_small; lia.
Qed.

Lemma numbered_app first l1 l2 :
  numbered first (l1 ++ l2)
  = numbered first l1 ++ numbered (first + Z.of_nat (length l1)) l2.
Proof.
  revert first. induction l1 as [|e l1 IH]; intros first; simpl.
  - by rewrite Z.add_0_r.
  - rewrite IH. do 3 f_equal. lia.
Qed.

Lemma numbered_bounds first l p :
  p ∈ numbered first l -> first <= p.1 < first + Z.of_nat (length l).
Proof.
  revert first. induction l as [|e l IH]; intros first; simpl.
  - intros H. by apply elem_of_nil in H.
  - intros [-> | H]%elem_of_cons; [simpl; lia|].
    apply IH in H. lia.
Qed.

Lemma NoDup_numbered_fst first l : NoDup ((numbered first l).*1).
Proof.
  revert first. induction l as [|e l IH]; intros first; simpl.
  - constructor.
  - constructor; [|apply IH].
    intros Hin. apply list_elem_of_fmap in Hin as (p & Hp & Hin).
    apply numbered_bounds in Hin. lia.
Qed.

Lemma length_numbered first l : length (numbered first l) = length l.
Proof. revert first. induction l; intros; simpl; auto. Qed.

Lemma advance_S n z : advance (S n) z = advance n (wrap_int (z + 1)).
Proof. unfold advance. by rewrite Nat.iter_succ_r. Qed.

Lemma advance_add n m z : advance (n + m) z = advance m (advance n z).
Proof.
  revert z. induction n as [|n IH]; intros z; [reflexivity|].
  change (S n + m)%nat with (S (n + m)). by rewrite !advance_S, IH.
Qed.

Lemma counted_app prev l1 l2 :
  counted prev (l1 ++ l2)
  = counted prev l1 ++ counted (advance (length l1) prev) l2.
Proof.
  revert prev. induction l1 as [|e l1 IH]; intros prev; [reflexivity|].
  cbn [app counted length]. by rewrite IH, advance_S.
Qed.

Lemma length_counted prev l : length (counted prev l) = length l.
Proof. revert prev. induction l; intros; simpl; auto. Qed.

(** While the count stays within int, the ids are [prev + 1],
    [prev + 2], ... *)
Lemma counted_small prev l :
  INT_MIN <= prev + 1 ->
  prev + Z.of_nat (length l) <= INT_MAX ->
  counted prev l = numbered (prev + 1) l.
Proof.
  revert prev. induction l as [|e l IH]; intros prev Hlo Hhi; [reflexivity|].
  cbn [counted numbered length] in *.
  rewrite wrap_int_small by lia. f_equal. apply IH; lia.
Qed.

Section Launching.

Variable X : Outside.
Variable yaml_config : string.
Variable config : Config.

Lemma log_reporter_not_media_server : log_reporter X <> ws_media_server X.
Proof.
  unfold log_reporter, ws_media_server. intros H.
  apply path_join_inj in H; [discriminate|reflexivity|reflexivity].
Qed.

Lemma run_log_reporters_spec sid pm :
  run_log_reporters X yaml_config config sid pm
  = pm ++ reporters X yaml_config config sid.
Proof.
  unfold run_log_reporters, reporters. generalize log_stems.
  intros stems. revert pm.
  induction stems as [|stem stems IH]; intros pm; simpl.
  - by rewrite app_nil_r.
  - rewrite IH. unfold run_as_child. by rewrite <- app_assoc.
Qed.

Lemma run_server_spec eid st :
  run_server X yaml_config config eid st
  = mk_Launch (wrap_int (server_id st + 1))
      (proc_manager st
         ++ block X yaml_config config (wrap_int (server_id st + 1), eid))
      (env_ st).
Proof.
  unfold run_server, block, run_as_child, media_child. simpl.
  destruct (enable_logging config).
  - by rewrite run_log_reporters_spec, <- app_assoc.
  - reflexivity.
Qed.

Lemma run_servers_spec count eid :
  forall st,
    run_servers X yaml_config config count eid st
    = mk_Launch (advance count (server_id st))
        (proc_manager st
           ++ flat_map (block X yaml_config config)
                (counted (server_id st) (replicate count eid)))
        (env_ st).
Proof.
  induction count as [|count IH]; intros st.
  - simpl. rewrite app_nil_r. by destruct st.
  - cbn [run_servers]. rewrite IH, run_server_spec, advance_S.
    cbn [server_id proc_manager env_ replicate counted flat_map].
    by rewrite <- app_assoc.
Qed.

Lemma fold_experiments exps :
  forall st,
    foldl (run_experiment X yaml_config config) st exps
    = mk_Launch
        (advance (length (expt_ids X exps (env_ st)).1) (server_id st))
        (proc_manager st
           ++ flat_map (block X yaml_config config)
                (counted (server_id st) (expt_ids X exps (env_ st)).1))
        (expt_ids X exps (env_ st)).2.
Proof.
  induction exps as [|e exps IH]; intros st.
  - simpl. rewrite app_nil_r. by destruct st.
  - cbn [foldl expt_ids]. rewrite IH. unfold run_experiment.
    destruct (retrieve_expt_id X _ (env_ st)) as [eid env'].
    rewrite run_servers_spec.
    cbn [server_id proc_manager env_ fst snd].
    rewrite counted_app, flat_map_app, length_app, length_replicate.
    by rewrite <- app_assoc, advance_add.
Qed.

Lemma launch_spec env :
  launch X yaml_config config env
  = mk_Launch
      (advance (length (expt_ids X (experiments config) env).1) 0)
      (flat_map (block X yaml_config config)
         (counted 0 (expt_ids X (experiments config) env).1))
      (expt_ids X (experiments config) env).2.
Proof. unfold launch. by rewrite fold_experiments. Qed.

Lemma media_servers_reporters sid :
  media_servers X (reporters X yaml_config config sid) = [].
Proof.
  unfold media_servers, reporters. induction log_stems as [|stem stems IH].
  - reflexivity.
  - simpl. rewrite filter_cons_False; [exact IH|].
    simpl. apply log_reporter_not_media_server.
Qed.

Lemma media_servers_block p :
  media_servers X (block X yaml_config config p) = [media_child X yaml_config p].
Proof.
  unfold media_servers, block.
  rewrite filter_cons_True by reflexivity. f_equal.
  destruct (enable_logging config); [apply media_servers_reporters|reflexivity].
Qed.

Lemma media_servers_blocks ps :
  media_servers X (flat_map (block X yaml_config config) ps)
  = media_child X yaml_config <$> ps.
Proof.
  induction ps as [|p ps IH]; [reflexivity|].
  cbn [flat_map]. unfold media_servers in *. rewrite filter_app, IH.
  fold (media_servers X (block X yaml_config config p)).
  by rewrite media_servers_block.
Qed.

End Launching.

Lemma length_expt_ids X exps env :
  length (expt_ids X exps env).1
  = foldr (fun e n => (N.to_nat (num_servers e) + n)%nat) 0%nat exps.
Proof.
  revert env. induction exps as [|e exps IH]; intros env; [reflexivity|].
  simpl. by rewrite length_app, length_replicate, IH.
Qed.


Lemma spawned_main X prog arg env :
  spawned (main X [prog; arg] env)
  = flat_map (block X (absolute X arg) (LoadFile X (absolute X arg)))
      (counted 0
         (expt_ids X (experiments (LoadFile X (absolute X arg))) env).1).
Proof. unfold main, spawned. by rewrite launch_spec. Qed.

(** A run of at most [INT_MAX] servers gives them the ids 1, 2, ... *)
Lemma spawned_main_small X prog arg env :
  Z.of_nat (total_servers (LoadFile X (absolute X arg))) <= INT_MAX ->
  spawned (main X [prog; arg] env)
  = flat_map (block X (absolute X arg) (LoadFile X (absolute X arg)))
      (numbered 1
         (expt_ids X (experiments (LoadFile X (absolute X arg))) env).1).
Proof.
  intros Htotal. rewrite spawned_main, counted_small; [reflexivity|done|].
  by rewrite length_expt_ids.
Qed.




(** C8, as stated, fails: with logging enabled six log reporters are
    tracked after each of the two media servers. *)
Lemma logging_adds_reporters :
  ~ two_workers (outside0 true) "/etc/settings.yml"
      (spawned (main (outside0 true) ["run_servers"; "settings.yml"] env_up)).
Proof.
  intros [eid H]. apply (f_equal length) in H. vm_compute in H. discriminate.
Qed.

Lemma length_block_logging X yaml_config config p :
  enable_logging config = true ->
  length (block X yaml_config config p) = 7%nat.
Proof. unfold block. intros ->. reflexivity. Qed.

(** C8, amended: with one experiment of worker count 2, exactly two media
    servers are tracked, with server ids 1 and 2 and the same experiment
    id.  With logging disabled they are the only tracked processes; with
    logging enabled each is followed by its six log reporters, 14 processes
    in all. *)
Theorem two_media_servers (X : Outside) (prog arg : string) (env : Env)
  (e : Experiment) :
  let yaml_config := absolute X arg in
  let config := LoadFile X yaml_config in
  let children := spawned (main X [prog; arg] env) in
  experiments config = [e] ->
  num_servers e = 2%N ->
  two_workers X yaml_config (media_servers X children) /\
  (enable_logging config = false -> two_workers X yaml_config children) /\
  (enable_logging config = true -> length children = 14%nat).
Proof.
  intros yaml_config config children Hexps Hnum.
  set (eid := (retrieve_expt_id X
                 (run X (expt_json X) [expt_json X; fingerprint e]) env).1).
  assert (Hchildren :
            children = block X yaml_config config (1, eid)
                       ++ block X yaml_config config (2, eid)).
  { subst children. rewrite spawned_main. fold yaml_config config.
    rewrite Hexps. cbn [expt_ids fst]. rewrite Hnum.
    change (N.to_nat 2) with 2%nat. cbn [replicate app counted flat_map].
    change (wrap_int (0 + 1)) with 1. change (wrap_int (1 + 1)) with 2.
    by rewrite app_nil_r. }
  split; [|split].
  - exists eid. rewrite Hchildren. unfold media_servers.
    rewrite filter_app.
    fold (media_servers X (block X yaml_config config (1, eid))).
    fold (media_servers X (block X yaml_config config (2, eid))).
    by rewrite !media_servers_block.
  - intros Hlog. exists eid. rewrite Hchildren. unfold block.
    by rewrite Hlog.
  - intros Hlog. rewrite Hchildren, length_app.
    by rewrite !length_block_logging.
Qed.

Lemma two_media_servers_witness :
  two_workers (outside0 true) "/etc/settings.yml"
    (media_servers (outside0 true)
       (spawned (main (outside0 true) ["run_servers"; "settings.yml"] env_up)))
  /\ length (spawned (main (outside0 true) ["run_servers"; "settings.yml"]
                       env_up)) = 14%nat.
Proof.
  destruct (two_media_servers (outside0 true) "run_servers" "settings.yml"
              env_up (mk_Experiment "{abr: linear_bba}" 2))
    as (Htwo & _ & Hlog).
  - reflexivity.
  - reflexivity.
  - split; [exact Htwo | apply Hlog; reflexivity].
Defined.

(** * Further properties of the launcher *)

(** ** The lookups of retrieve_expt_id *)

Lemma existsb_false_Forall {A} (f : A -> bool) l :
  existsb f l = false -> Forall (fun x => f x = false) l.
Proof.
  induction l as [|x l IH]; simpl; [constructor|].
  intros [Hx Hl]%orb_false_iff. constructor; auto.
Qed.

Lemma filter_hash_fresh (h : string) (rows : list Row) :
  Forall (fun r => row_hash r <> h) rows ->
  filter (fun r => row_hash r = h) rows = [].
Proof.
  induction 1 as [|r rows Hr _ IH]; [reflexivity|].
  by rewrite filter_cons_False.
Qed.

Lemma clash_free h id rows :
  existsb (fun r => bool_decide (row_hash r = h) || bool_decide (row_id r = id))
          rows = false ->
  fresh_in h id rows.
Proof.
  intros H%existsb_false_Forall. unfold fresh_in.
  eapply Forall_impl; [exact H|]. simpl.
  intros r [H1 H2]%orb_false_iff.
  by apply bool_decide_eq_false in H1, H2.
Qed.

Lemma reaches_select_spec env :
  reaches_select env = true ->
  faulty env StHash = false /\ faulty env StConnString = false /\
  faulty env StConnect = false /\ faulty env StCreateTable = false /\
  faulty env StPrepare = false /\ faulty env StBegin = false /\
  faulty env StSelect = false.
Proof.
  unfold reaches_select. simpl. rewrite !andb_true_iff, !negb_true_iff.
  tauto.
Qed.

(** Every call ends in a clean environment whose table is the old one, or
    the old one with one row more, whose hash and id were free. *)
Lemma retrieve_growth (X : Outside) (json : string) (env : Env) :
  faulty (retrieve_expt_id X json env).2 = faulty env /\
  uncommitted (retrieve_expt_id X json env).2 = [] /\
  (table (retrieve_expt_id X json env).2 = table env \/
   (table (retrieve_expt_id X json env).2
    = table env ++ [mk_Row (next_serial env) (sha256 X json) json] /\
    fresh_in (sha256 X json) (next_serial env) (table env))).
Proof.
  run_body.
  all: try (simpl; by auto).
  rewrite app_nil_r.
  destruct (single_field _) as [field|] eqn:Hsf.
  - destruct ((INT_MIN <=? field) && (field <=? INT_MAX)); simpl; by auto.
  - simpl. destruct (faulty env StInsert); [simpl; by auto|].
    simpl. rewrite app_nil_r.
    destruct (existsb _ (table env)) eqn:Hclash; [simpl; by auto|].
    apply clash_free in Hclash.
    simpl. destruct (faulty env StCommit); [simpl; by auto|].
    simpl.
    destruct ((INT_MIN <=? next_serial env) && (next_serial env <=? INT_MAX));
      simpl; auto.
Qed.

(** A lookup that can reach the SELECT and finds one row returns its id. *)
Lemma retrieve_found (X : Outside) (json : string) (env : Env) (r : Row) :
  reaches_select env = true ->
  filter (fun r => row_hash r = sha256 X json) (table env) = [r] ->
  (INT_MIN <=? row_id r) && (row_id r <=? INT_MAX) = true ->
  retrieve_expt_id X json env = (row_id r, rollback env).
Proof.
  intros (H1 & H2 & H3 & H4 & H5 & H6 & H7)%reaches_select_spec Hrows Hint.
  unfold retrieve_expt_id, retrieve_body, begin_work, select_id, as_int.
  unfold bind, ext, ret. rewrite H1, H2, H3, H4, H5, H6. simpl.
  rewrite H7. simpl. rewrite app_nil_r, Hrows. simpl. rewrite Hint.
  reflexivity.
Qed.

(** A result that is not negative comes from a row found or from a row
    added. *)
Lemma retrieve_success (X : Outside) (json : string) (env : Env) :
  0 <= (retrieve_expt_id X json env).1 ->
  reaches_select env = true /\
  ((exists r,
      filter (fun r => row_hash r = sha256 X json) (table env) = [r] /\
      (INT_MIN <=? row_id r) && (row_id r <=? INT_MAX) = true /\
      retrieve_expt_id X json env = (row_id r, rollback env)) \/
   (fresh_in (sha256 X json) (next_serial env) (table env) /\
    (INT_MIN <=? next_serial env) && (next_serial env <=? INT_MAX) = true /\
    retrieve_expt_id X json env
    = (next_serial env,
       mk_Env (table env ++ [mk_Row (next_serial env) (sha256 X json) json])
         [] (next_serial env + 1) (faulty env) (stderr env)))).
Proof.
  run_body.
  all: try (simpl; intros; lia).
  assert (Hreach : reaches_select env = true).
  { unfold reaches_select. simpl.
    by rewrite Heqb, Heqb0, Heqb1, Heqb2, Heqb3, Heqb4, Heqb5. }
  rewrite app_nil_r.
  destruct (single_field _) as [field|] eqn:Hsf.
  - apply single_field_map in Hsf as (r & Hrows & <-).
    destruct ((INT_MIN <=? row_id r) && (row_id r <=? INT_MAX)) eqn:Hint;
      simpl; [|intros; lia].
    intros _. split; [exact Hreach|]. left. by exists r.
  - simpl. destruct (faulty env StInsert); [simpl; intros; lia|].
    simpl. rewrite app_nil_r.
    destruct (existsb _ (table env)) eqn:Hclash; [simpl; intros; lia|].
    apply clash_free in Hclash.
    simpl. destruct (faulty env StCommit); [simpl; intros; lia|].
    simpl.
    destruct ((INT_MIN <=? next_serial env) && (next_serial env <=? INT_MAX))
      eqn:Hint; simpl; [|intros; lia].
    intros _. split; [exact Hreach|]. by right.
Qed.

(** A result that is not negative makes the input known. *)
Lemma retrieve_makes_known (X : Outside) (json : string) (env : Env) :
  0 <= (retrieve_expt_id X json env).1 ->
  known X json (retrieve_expt_id X json env).1 (retrieve_expt_id X json env).2.
Proof.
  intros Hid.
  destruct (retrieve_success X json env Hid)
    as [Hreach [(r & Hrows & Hint & Hr) | (Hfresh & Hint & Hr)]];
    rewrite Hr; cbn [fst snd table rollback]; (split; [exact Hreach|]).
  - by exists r.
  - exists (mk_Row (next_serial env) (sha256 X json) json).
    split; [|split; [reflexivity|exact Hint]].
    change (table (mk_Env ?t _ _ _ _)) with t.
    rewrite filter_app, filter_hash_fresh.
    + by rewrite filter_cons_True.
    + eapply Forall_impl; [exact Hfresh|]. simpl. tauto.
Qed.

Lemma known_retrieve X json id env :
  known X json id env ->
  retrieve_expt_id X json env = (id, rollback env).
Proof.
  intros (Hreach & r & Hrows & <- & Hint). by apply retrieve_found.
Qed.

Lemma known_preserved X json id other env :
  known X json id env ->
  known X json id (retrieve_expt_id X other env).2.
Proof.
  intros (Hreach & r & Hrows & Hid & Hint).
  destruct (retrieve_growth X other env) as (Hf & _ & Ht).
  split.
  - unfold reaches_select in *. by rewrite Hf.
  - exists r. split; [|done].
    destruct Ht as [-> | [-> Hfresh]]; [done|].
    rewrite filter_app, Hrows.
    rewrite filter_cons_False; [done|]. simpl. intros Heq.
    assert (Hin : r ∈ table env).
    { assert (r ∈ filter (fun r => row_hash r = sha256 X json) (table env))
        as Hr by (rewrite Hrows; apply list_elem_of_here).
      by apply list_elem_of_filter in Hr as [_ ?]. }
    assert (Hh : row_hash r = sha256 X json).
    { assert (r ∈ filter (fun r => row_hash r = sha256 X json) (table env))
        as Hr by (rewrite Hrows; apply list_elem_of_here).
      by apply list_elem_of_filter in Hr as [? _]. }
    unfold fresh_in in Hfresh. rewrite Forall_forall in Hfresh.
    destruct (Hfresh r Hin) as [Hne _]. congruence.
Qed.

Lemma known_lookups X json id others :
  forall env, known X json id env -> known X json id (lookups X others env).
Proof.
  unfold lookups. induction others as [|o others IH]; intros env Hk; [done|].
  simpl. apply IH. by apply known_preserved.
Qed.

Lemma rollback_clean env : uncommitted env = [] -> rollback env = env.
Proof. destruct env. simpl. by intros ->. Qed.

(** X15: the lookup is an idempotent upsert.  Once [retrieve_expt_id] has
    returned an id that is not negative, every later call with the same
    input returns the same id and changes nothing, whatever other inputs
    were looked up in between. *)
Theorem retrieve_expt_id_is_stable (X : Outside) (json : string)
  (others : list string) (env : Env) :
  0 <= (retrieve_expt_id X json env).1 ->
  retrieve_expt_id X json (retrieve_expt_id X json env).2
  = retrieve_expt_id X json env /\
  retrieve_expt_id X json (lookups X others (retrieve_expt_id X json env).2)
  = ((retrieve_expt_id X json env).1,
     lookups X others (retrieve_expt_id X json env).2).
Proof.
  intros Hid. pose proof (retrieve_makes_known X json env Hid) as Hk.
  destruct (retrieve_growth X json env) as (_ & Hclean & _).
  split.
  - rewrite (known_retrieve _ _ _ _ Hk), rollback_clean by done.
    by destruct (retrieve_expt_id X json env).
  - rewrite (known_retrieve _ _ _ _ (known_lookups _ _ _ others _ Hk)).
    f_equal. apply rollback_clean.
    clear Hk Hid. revert Hclean.
    generalize (retrieve_expt_id X json env).2.
    unfold lookups. induction others as [|o others IH]; intros e He; [done|].
    simpl. apply IH. apply retrieve_growth.
Qed.

Lemma retrieve_expt_id_is_stable_witness :
  retrieve_expt_id (outside0 false) "{c}"
    (lookups (outside0 false) ["{a}"; "{d}"]
       (retrieve_expt_id (outside0 false) "{c}" env_two).2)
  = (3, lookups (outside0 false) ["{a}"; "{d}"]
          (retrieve_expt_id (outside0 false) "{c}" env_two).2).
Proof.
  destruct (retrieve_expt_id_is_stable (outside0 false) "{c}"
              ["{a}"; "{d}"] env_two) as [_ H].
  - vm_compute. discriminate.
  - exact H.
Defined.

Lemma NoDup_fmap_same {A B} (f : A -> B) (l : list A) x y :
  NoDup (f <$> l) -> x ∈ l -> y ∈ l -> f x = f y -> x = y.
Proof.
  induction l as [|a l IH]; intros Hnd Hx Hy Hf.
  - by apply elem_of_nil in Hx.
  - rewrite fmap_cons in Hnd. apply NoDup_cons in Hnd as [Ha Hnd].
    apply elem_of_cons in Hx as [-> | Hx], Hy as [-> | Hy]; try done.
    + exfalso. apply Ha. rewrite Hf. by apply list_elem_of_fmap_2.
    + exfalso. apply Ha. rewrite <- Hf. by apply list_elem_of_fmap_2.
    + by apply IH.
Qed.

Lemma NoDup_snoc_fresh {A} (l : list A) x : NoDup l -> x ∉ l -> NoDup (l ++ [x]).
Proof.
  intros Hl Hx. apply NoDup_app. split; [exact Hl|]. split.
  - intros y Hy Hin. apply list_elem_of_singleton in Hin. by subst.
  - apply NoDup_singleton.
Qed.

Lemma constraints_kept X json env :
  constraints_hold env -> constraints_hold (retrieve_expt_id X json env).2.
Proof.
  intros [Hh Hi]. unfold constraints_hold.
  destruct (retrieve_growth X json env) as (_ & _ & [-> | [-> Hfresh]]);
    [done|].
  unfold fresh_in in Hfresh. rewrite Forall_forall in Hfresh.
  rewrite !fmap_app. simpl. split; apply NoDup_snoc_fresh; try done.
  - intros (r & Heq & Hin)%list_elem_of_fmap.
    destruct (Hfresh r Hin) as [Hne _]. by apply Hne.
  - intros (r & Heq & Hin)%list_elem_of_fmap.
    destruct (Hfresh r Hin) as [_ Hne]. by apply Hne.
Qed.

(** X16: [retrieve_expt_id] keeps the table within its constraints and
    never removes or changes a row: when no two rows share a hash or an id
    before the call, none do after it, and the table after the call is the
    table before it with at most one row more, which holds the hash of the
    input. *)
Theorem retrieve_expt_id_keeps_constraints (X : Outside) (json : string)
  (env : Env) :
  constraints_hold env ->
  constraints_hold (retrieve_expt_id X json env).2 /\
  (table (retrieve_expt_id X json env).2 = table env \/
   exists id,
     table (retrieve_expt_id X json env).2
     = table env ++ [mk_Row id (sha256 X json) json]).
Proof.
  intros Hc. split; [by apply constraints_kept|].
  destruct (retrieve_growth X json env) as (_ & _ & [Ht | [Ht _]]); eauto.
Qed.

Lemma retrieve_expt_id_keeps_constraints_witness :
  constraints_hold (retrieve_expt_id (outside0 false) "{c}" env_two).2 /\
  (table (retrieve_expt_id (outside0 false) "{c}" env_two).2 = table env_two \/
   exists id,
     table (retrieve_expt_id (outside0 false) "{c}" env_two).2
     = table env_two ++ [mk_Row id (sha256 (outside0 false) "{c}") "{c}"]).
Proof.
  apply (retrieve_expt_id_keeps_constraints (outside0 false) "{c}" env_two).
  split; apply (bool_decide_unpack _); vm_compute; exact I.
Defined.

(** X17: inputs with different hashes get different ids.  When the table
    obeys its constraints and two lookups in a row, for inputs whose hashes
    differ, both return an id that is not negative, the two ids differ. *)
Theorem different_hashes_different_ids (X : Outside) (json1 json2 : string)
  (env : Env) :
  constraints_hold env ->
  sha256 X json1 <> sha256 X json2 ->
  0 <= (retrieve_expt_id X json1 env).1 ->
  0 <= (retrieve_expt_id X json2 (retrieve_expt_id X json1 env).2).1 ->
  (retrieve_expt_id X json1 env).1
  <> (retrieve_expt_id X json2 (retrieve_expt_id X json1 env).2).1.
Proof.
  intros Hc Hne H1 H2 Heq.
  set (env1 := (retrieve_expt_id X json1 env).2) in *.
  set (env2 := (retrieve_expt_id X json2 env1).2).
  pose proof (known_preserved X json1 _ json2 env1
                (retrieve_makes_known X json1 env H1)) as (_ & r1 & Hr1 & Hid1 & _).
  pose proof (retrieve_makes_known X json2 env1 H2) as (_ & r2 & Hr2 & Hid2 & _).
  fold env2 in Hr1, Hr2.
  assert (Hc2 : constraints_hold env2) by by do 2 apply constraints_kept.
  assert (Hin : forall h r,
            filter (fun r => row_hash r = h) (table env2) = [r] ->
            r ∈ table env2 /\ row_hash r = h).
  { intros h r Hr.
    assert (r ∈ filter (fun r => row_hash r = h) (table env2)) as Hm
      by (rewrite Hr; apply list_elem_of_here).
    apply list_elem_of_filter in Hm. tauto. }
  destruct (Hin _ _ Hr1) as [Hin1 Hh1], (Hin _ _ Hr2) as [Hin2 Hh2].
  assert (r1 = r2).
  { apply (NoDup_fmap_same row_id (table env2)); [apply Hc2|done|done|].
    congruence. }
  subst r2. congruence.
Qed.

Lemma different_hashes_different_ids_witness :
  (retrieve_expt_id (outside0 false) "{b}" env_two).1
  <> (retrieve_expt_id (outside0 false) "{c}"
        (retrieve_expt_id (outside0 false) "{b}" env_two).2).1.
Proof.
  apply (different_hashes_different_ids (outside0 false) "{b}" "{c}" env_two).
  - split; apply (bool_decide_unpack _); vm_compute; exact I.
  - vm_compute. discriminate.
  - vm_compute. discriminate.
  - vm_compute. discriminate.
Defined.

(** ** Running main again *)

Lemma expt_ids_clean X exps :
  forall env, uncommitted env = [] -> uncommitted (expt_ids X exps env).2 = [].
Proof.
  induction exps as [|e exps IH]; intros env He; [done|].
  simpl. apply IH. apply retrieve_growth.
Qed.

Lemma known_expt_ids X json id exps :
  forall env, known X json id env -> known X json id (expt_ids X exps env).2.
Proof.
  induction exps as [|e exps IH]; intros env Hk; [done|].
  simpl. apply IH. by apply known_preserved.
Qed.

Lemma expt_ids_again X exps :
  forall env,
    Forall (fun id => 0 <= id) (expt_ids X exps env).1 ->
    Forall (fun e => (0 < num_servers e)%N) exps ->
    uncommitted env = [] ->
    expt_ids X exps (expt_ids X exps env).2 = expt_ids X exps env.
Proof.
  induction exps as [|e exps IH]; intros env Hids Hpos Hclean; [done|].
  apply Forall_cons in Hpos as [Hpos1 Hpos].
  cbn [expt_ids fst snd] in *.
  set (json := run X (expt_json X) [expt_json X; fingerprint e]) in *.
  apply Forall_app in Hids as [Hid Hids].
  assert (Hid0 : 0 <= (retrieve_expt_id X json env).1).
  { destruct (N.to_nat (num_servers e)) eqn:En; [lia|].
    simpl in Hid. by apply Forall_cons in Hid as [? _]. }
  set (envA := (retrieve_expt_id X json env).2) in *.
  set (env1 := (expt_ids X exps envA).2).
  assert (HcleanA : uncommitted envA = []) by apply retrieve_growth.
  assert (Hclean1 : uncommitted env1 = []) by by apply expt_ids_clean.
  assert (Hk : known X json (retrieve_expt_id X json env).1 env1).
  { apply known_expt_ids. by apply retrieve_makes_known. }
  rewrite (known_retrieve _ _ _ _ Hk), rollback_clean by done.
  cbn [fst snd]. subst env1. rewrite (IH envA Hids Hpos HcleanA).
  reflexivity.
Qed.

(** X18: running [main] again gives the same children.  When every
    experiment has at least one server and the first run gave every media
    server an experiment id that is not negative, a second run on the
    database the first one left spawns exactly the same processes with the
    same arguments and leaves the database as it found it. *)
Theorem main_again_spawns_the_same (X : Outside) (prog arg : string)
  (env : Env) :
  let config := LoadFile X (absolute X arg) in
  uncommitted env = [] ->
  Forall (fun e => (0 < num_servers e)%N) (experiments config) ->
  Forall (fun id => 0 <= id) (expt_ids X (experiments config) env).1 ->
  match main X [prog; arg] env with
  | Exited status children env1 =>
      main X [prog; arg] env1 = Exited status children env1
  | Aborted => False
  end.
Proof.
  intros config Hclean Hpos Hids. unfold main. fold config.
  rewrite !launch_spec. cbn [proc_manager env_].
  by rewrite (expt_ids_again X _ env Hids Hpos Hclean).
Qed.

Lemma main_again_spawns_the_same_witness :
  match main outside3 ["run_servers"; "settings.yml"] env_two with
  | Exited status children env1 =>
      main outside3 ["run_servers"; "settings.yml"] env1
      = Exited status children env1
  | Aborted => False
  end.
Proof.
  apply (main_again_spawns_the_same outside3 "run_servers" "settings.yml"
           env_two).
  - reflexivity.
  - repeat constructor.
  - vm_compute. repeat constructor; discriminate.
Defined.

(** ** All the children of a run *)

Lemma length_flat_map_const {A B} (f : A -> list B) (l : list A) n :
  (forall x, length (f x) = n) -> length (flat_map f l) = (length l * n)%nat.
Proof.
  intros H. induction l as [|x l IH]; [reflexivity|].
  simpl. by rewrite length_app, H, IH.
Qed.

Lemma length_block X yaml_config config p :
  length (block X yaml_config config p)
  = if enable_logging config then 7%nat else 1%nat.
Proof. unfold block. by destruct (enable_logging config). Qed.

(** X19: [main] with one argument starts one media server per server of
    every experiment and, when logging is enabled, six log reporters with
    each: the number of children is the total number of servers, times
    seven with logging. *)
Theorem number_of_children (X : Outside) (prog arg : string) (env : Env) :
  let config := LoadFile X (absolute X arg) in
  length (spawned (main X [prog; arg] env))
  = (total_servers config * if enable_logging config then 7 else 1)%nat /\
  length (media_servers X (spawned (main X [prog; arg] env)))
  = total_servers config.
Proof.
  intros config. rewrite spawned_main. fold config. split.
  - rewrite (length_flat_map_const _ _ _ (length_block X _ config)).
    by rewrite length_counted, length_expt_ids.
  - rewrite media_servers_blocks, length_fmap, length_counted.
    apply length_expt_ids.
Qed.

Lemma numbered_fst k l :
  (numbered (Z.of_nat k) l).*1 = Z.of_nat <$> seq k (length l).
Proof.
  revert k. induction l as [|e l IH]; intros k; [reflexivity|].
  simpl. f_equal. rewrite <- IH. do 2 f_equal. lia.
Qed.

Lemma other_children_reporters X yaml_config config sid :
  other_children X (reporters X yaml_config config sid)
  = reporter_child X yaml_config config sid <$> log_stems.
Proof.
  unfold other_children, reporters, reporter_child.
  induction log_stems as [|stem stems IH]; [reflexivity|].
  simpl. rewrite filter_cons_True by (simpl; apply log_reporter_not_media_server).
  by rewrite IH.
Qed.

Lemma other_children_blocks X yaml_config config ps :
  other_children X (flat_map (block X yaml_config config) ps)
  = if enable_logging config
    then flat_map (fun sid => reporter_child X yaml_config config sid
                                <$> log_stems) ps.*1
    else [].
Proof.
  induction ps as [|p ps IH].
  - by destruct (enable_logging config).
  - cbn [flat_map fmap list_fmap]. unfold other_children in *.
    rewrite filter_app, IH. unfold block.
    rewrite filter_cons_False by (simpl; intros H; by apply H).
    destruct (enable_logging config); [|reflexivity].
    fold (other_children X (reporters X yaml_config config p.1)).
    by rewrite other_children_reporters.
Qed.

(** X20: in a run of at most [INT_MAX] servers, the children that are not
    media servers are the log reporters.  Without logging there is none;
    with logging there are, for each server id from 1 to the number of
    servers and in this order, the six reporters of [log_stems], each
    started with its own path, the configuration path, the format file of
    its log and the log file that carries the server id. *)
Theorem log_reporters_of_a_run (X : Outside) (prog arg : string) (env : Env) :
  let yaml_config := absolute X arg in
  let config := LoadFile X yaml_config in
  Z.of_nat (total_servers config) <= INT_MAX ->
  other_children X (spawned (main X [prog; arg] env))
  = if enable_logging config
    then flat_map (fun sid => reporter_child X yaml_config config sid
                                <$> log_stems)
           (server_ids (total_servers config))
    else [].
Proof.
  intros yaml_config config Htotal.
  rewrite spawned_main_small by exact Htotal. fold yaml_config config.
  rewrite other_children_blocks.
  destruct (enable_logging config); [|reflexivity].
  change 1 with (Z.of_nat 1). rewrite numbered_fst.
  unfold server_ids. do 3 f_equal. apply length_expt_ids.
Qed.

Lemma log_reporters_of_a_run_witness :
  other_children (outside0 true)
    (spawned (main (outside0 true) ["run_servers"; "settings.yml"] env_up))
  = flat_map (fun sid => reporter_child (outside0 true) "/etc/settings.yml"
                           (config_two true) sid <$> log_stems)
      [1; 2].
Proof.
  apply (log_reporters_of_a_run (outside0 true) "run_servers" "settings.yml"
           env_up).
  vm_compute. discriminate.
Defined.

Lemma string_length_append (a b : string) :
  String.length (a +:+ b) = (String.length a + String.length b)%nat.
Proof. induction a as [|c a IH]; simpl; [done|]. by rewrite IH. Qed.

Lemma append_inj_r (a b c : string) : a +:+ c = b +:+ c -> a = b.
Proof.
  revert b. induction a as [|x a IH]; intros [|y b] H.
  - reflexivity.
  - apply (f_equal String.length) in H.
    rewrite !string_length_append in H. simpl in H. lia.
  - apply (f_equal String.length) in H.
    rewrite !string_length_append in H. simpl in H. lia.
  - change (String x (a +:+ c) = String y (b +:+ c)) in H.
    injection H as -> H. f_equal. by apply IH.
Qed.

Lemma log_name_inj stem1 stem2 sid1 sid2 :
  stem1 ∈ log_stems -> stem2 ∈ log_stems ->
  stem1 +:+ "." +:+ to_string sid1 +:+ ".log"
  = stem2 +:+ "." +:+ to_string sid2 +:+ ".log" ->
  stem1 = stem2 /\ sid1 = sid2.
Proof.
  unfold log_stems. intros H1 H2 Heq.
  repeat (apply elem_of_cons in H1 as [-> | H1]);
    [| | | | | |by apply elem_of_nil in H1];
    repeat (apply elem_of_cons in H2 as [-> | H2]);
    try (by apply elem_of_nil in H2);
    simpl in Heq; try discriminate Heq;
    repeat (injection Heq as Heq); try discriminate;
    (split; [reflexivity|]);
    by apply to_string_inj, (append_inj_r _ _ ".log").
Qed.

Lemma log_name_relative stem rest :
  stem ∈ log_stems -> is_absolute (stem +:+ rest) = false.
Proof.
  unfold log_stems. intros H.
  repeat (apply elem_of_cons in H as [-> | H]); try reflexivity.
  by apply elem_of_nil in H.
Qed.

Lemma log_path_of_reporter X yaml_config config sid stem :
  log_path_of (reporter_child X yaml_config config sid stem)
  = Some (path_join (log_dir config)
            (stem +:+ "." +:+ to_string sid +:+ ".log")).
Proof. reflexivity. Qed.

Lemma NoDup_log_paths X yaml_config config sids :
  NoDup sids ->
  NoDup (log_path_of <$>
           flat_map (fun sid => reporter_child X yaml_config config sid
                                  <$> log_stems) sids).
Proof.
  induction 1 as [|sid sids Hsid Hnd IH]; [constructor|].
  cbn [flat_map]. rewrite fmap_app. apply NoDup_app. split; [|split].
  - rewrite <- list_fmap_compose. apply NoDup_fmap_2_strong.
    + intros s1 s2 Hs1 Hs2 Heq. simpl in Heq.
      rewrite !log_path_of_reporter in Heq. injection Heq as Heq.
      apply path_join_inj in Heq; [|by apply log_name_relative..].
      by destruct (log_name_inj _ _ _ _ Hs1 Hs2 Heq).
    + unfold log_stems. apply (bool_decide_unpack _). vm_compute. exact I.
  - intros x Hx Hx'.
    apply list_elem_of_fmap in Hx as (c & -> & Hc).
    apply list_elem_of_fmap in Hc as (s1 & -> & Hs1).
    apply list_elem_of_fmap in Hx' as (c' & Heq & Hc').
    apply list_elem_of_In, in_flat_map in Hc' as (sid' & Hsid' & Hc').
    apply list_elem_of_In in Hsid', Hc'.
    apply list_elem_of_fmap in Hc' as (s2 & -> & Hs2).
    rewrite !log_path_of_reporter in Heq. injection Heq as Heq.
    apply path_join_inj in Heq; [|by apply log_name_relative..].
    destruct (log_name_inj _ _ _ _ Hs1 Hs2 Heq) as [_ ->]. by apply Hsid.
  - exact IH.
Qed.

(** X21: in a run of at most [INT_MAX] servers no two log reporters are
    given the same log file, whatever the log directory: the output-log
    arguments of the children that are not media servers are pairwise
    different. *)
Theorem log_files_are_distinct (X : Outside) (prog arg : string) (env : Env) :
  Z.of_nat (total_servers (LoadFile X (absolute X arg))) <= INT_MAX ->
  NoDup (log_path_of <$> other_children X (spawned (main X [prog; arg] env))).
Proof.
  intros Htotal.
  rewrite spawned_main_small by exact Htotal. rewrite other_children_blocks.
  destruct (enable_logging _); [|constructor].
  apply NoDup_log_paths, NoDup_numbered_fst.
Qed.

Lemma log_files_are_distinct_witness :
  NoDup (log_path_of <$>
           other_children (outside0 true)
             (spawned (main (outside0 true) ["run_servers"; "settings.yml"]
                         env_up))).
Proof.
  apply (log_files_are_distinct (outside0 true) "run_servers" "settings.yml"
           env_up).
  vm_compute. discriminate.
Defined.
